(** * Minesweeper-AI: the knowledge-based agent of [minesweeper.py]

    A shallow embedding of the classes [Minesweeper], [Sentence] and
    [MinesweeperAI], followed by the properties of the inference engine.

    Conventions of the embedding.
    - A Python [int] is a [Z]; a cell is a pair of them.
    - A Python [set] of cells is a [gset Cell]: equality of two such sets is
      equality of their members, as [==] is on Python sets.
    - A Python [list] is a [list]; [append] adds at the end.
    - A method that mutates [self] returns the new value of [self]; a method
      that answers a question returns its answer paired with [self], so that
      "the call changes nothing" is a statement about the second component.
    - A call that may raise returns a [py], either a value or the exception.
    - The order in which a [for] loop visits a Python [set] is not fixed by
      the language: the agent's methods take it as the argument [set_iter],
      and the theorems assume of it only that it lists a set's members, each
      once.
    - [random.randrange] is replaced by the sequence of cells it produces,
      [draws]: attempt number [i] samples the cell [draws i].
    - A [while] loop that may run for ever takes [fuel], the number of
      iterations it is given, and returns [None] when it is used up. *)

From stdpp Require Import gmap list.

#[local] Set Warnings "-clear-no-such-hyp".

Local Open Scope Z_scope.

(** ** Python values *)

Abbreviation Cell := (Z * Z)%type.

Inductive exn : Type := ValueError | IndexError.

Inductive py (A : Type) : Type :=
| Ret (a : A)
| Raise (e : exn).
Arguments Ret {A} a.
Arguments Raise {A} e.

#[global] Instance exn_eq_dec : EqDecision exn.
Proof. solve_decision. Defined.

#[global] Instance py_eq_dec {A : Type} `{EqDecision A} : EqDecision (py A).
Proof. solve_decision. Defined.

#[global] Instance py_bind : MBind py := λ A B k m,
  match m with
  | Ret a => k a
  | Raise e => Raise e
  end.

(** [range(a, b)] *)
Definition py_range (a b : Z) : list Z :=
  (λ k : nat, a + Z.of_nat k) <$> seq 0 (Z.to_nat (b - a)).

(** [l[i]] for an index that is not negative. *)
Definition py_index {A : Type} (l : list A) (i : Z) : py A :=
  match l !! Z.to_nat i with
  | Some x => Ret x
  | None => Raise IndexError
  end.

(** [l[i]] for any index: a negative one counts from the end. *)
Definition py_getitem {A : Type} (l : list A) (i : Z) : py A :=
  let n := Z.of_nat (length l) in
  let k := if bool_decide (i < 0) then i + n else i in
  if bool_decide (0 ≤ k) && bool_decide (k < n) then py_index l k
  else Raise IndexError.

(** [l[i] = v], with the same reading of the index. *)
Definition py_setitem {A : Type} (l : list A) (i : Z) (v : A) : py (list A) :=
  let n := Z.of_nat (length l) in
  let k := if bool_decide (i < 0) then i + n else i in
  if bool_decide (0 ≤ k) && bool_decide (k < n)
  then Ret (<[Z.to_nat k := v]> l)
  else Raise IndexError.

(** ** class Minesweeper *)

Module Minesweeper.

(** The fields [nearby_mines] and [is_mine] read; [game] below adds the
    two sets of cells. *)

Record t : Type := mk {
  height : Z;
  width : Z;
  board : list (list bool)
}.

(** One step of the two nested loops of [nearby_mines], at [(i, j)]. *)
Definition nearby_step (self : t) (cell : Cell) (count : py Z) (ij : Cell)
  : py Z :=
  count ← count;
  if bool_decide (ij = cell) then Ret count
  else if bool_decide (0 ≤ ij.1) && bool_decide (ij.1 < height self)
          && bool_decide (0 ≤ ij.2) && bool_decide (ij.2 < width self)
  then row ← py_index (board self) ij.1;
       b ← py_index row ij.2;
       Ret (if b : bool then count + 1 else count)
  else Ret count.

Definition nearby_mines (self : t) (cell : Cell) : py Z :=
  foldl (λ count i,
           foldl (λ count j, nearby_step self cell count (i, j))
                 count (py_range (cell.2 - 1) (cell.2 + 2)))
        (Ret 0) (py_range (cell.1 - 1) (cell.1 + 2)).

Definition is_mine (self : t) (cell : Cell) : py bool :=
  row ← py_getitem (board self) cell.1;
  py_getitem row cell.2.

(** The whole object: the fields above, [mines] and [mines_found]. *)
Record game : Type := mk_game {
  base : t;
  mines : gset Cell;
  mines_found : gset Cell
}.

(** Lines 17-22: the field without mines. *)
Definition empty_board (height width : Z) : list (list bool) :=
  foldl (λ board i,
           board ++ [foldl (λ row j, row ++ [false]) [] (py_range 0 width)])
        [] (py_range 0 height).

(** Lines 25-30. The loop runs until as many mines are placed as asked
    for, which it may never do: [fuel] bounds the iterations, and [None]
    says it ran out. Iteration [k] samples the cell [draws k];
    [random.randrange] raises on an empty range. *)
Fixpoint place_mines (fuel : nat) (draws : nat → Cell) (k : nat)
    (height width mines_wanted : Z)
    (mines : gset Cell) (board : list (list bool))
  : option (py (gset Cell * list (list bool))) :=
  if bool_decide (Z.of_nat (size mines) ≠ mines_wanted) then
    match fuel with
    | O => None
    | S fuel =>
        if bool_decide (0 < height) && bool_decide (0 < width) then
          let '(i, j) := draws k in
          match py_getitem board i with
          | Raise e => Some (Raise e)
          | Ret row =>
              match py_getitem row j with
              | Raise e => Some (Raise e)
              | Ret mined =>
                  if negb mined then
                    match row ← py_setitem row j true;
                          py_setitem board i row with
                    | Raise e => Some (Raise e)
                    | Ret board =>
                        place_mines fuel draws (S k) height width
                          mines_wanted (mines ∪ {[(i, j)]}) board
                    end
                  else
                    place_mines fuel draws (S k) height width mines_wanted
                      mines board
              end
          end
        else Some (Raise ValueError)
    end
  else Some (Ret (mines, board)).

(** [__init__] *)
Definition init (fuel : nat) (draws : nat → Cell) (height width mines : Z)
  : option (py game) :=
  placed ← place_mines fuel draws 0 height width mines ∅
                       (empty_board height width);
  Some (placed ← placed;
        Ret (mk_game (mk height width placed.2) placed.1 ∅)).

Definition won (self : game) : bool :=
  bool_decide (mines_found self = mines self).

End Minesweeper.

(** ** class Sentence *)

Module Sentence.

Record t : Type := mk {
  cells : gset Cell;
  count : Z
}.

(** [Sentence(cells, count)]: the constructor copies [cells] into a set. *)
Definition init (cells : list Cell) (count : Z) : t :=
  mk (list_to_set cells) count.

(** [__eq__] *)
Definition eqb (self other : t) : bool :=
  bool_decide (cells self = cells other)
  && bool_decide (count self = count other).

Definition known_mines (self : t) : gset Cell * t :=
  (if bool_decide (Z.of_nat (size (cells self)) = count self)
   then cells self else ∅,
   self).

Definition known_safes (self : t) : gset Cell * t :=
  (if bool_decide (count self = 0) then cells self else ∅, self).

Definition mark_mine (cell : Cell) (self : t) : t :=
  if bool_decide (cell ∈ cells self)
  then mk (cells self ∖ {[cell]}) (count self - 1)
  else self.

Definition mark_safe (cell : Cell) (self : t) : t :=
  if bool_decide (cell ∈ cells self)
  then mk (cells self ∖ {[cell]}) (count self)
  else self.

End Sentence.

#[global] Instance sentence_eq_dec : EqDecision Sentence.t.
Proof. solve_decision. Defined.

(** ** class MinesweeperAI *)

Module MinesweeperAI.

Record t : Type := mk {
  height : Z;
  width : Z;
  moves_made : gset Cell;
  mines : list Cell;
  safes : list Cell;
  knowledge : list Sentence.t
}.

(** [__init__] *)
Definition init (height width : Z) : t := mk height width ∅ [] [] [].

Definition set_moves_made (self : t) (m : gset Cell) : t :=
  mk (height self) (width self) m (mines self) (safes self) (knowledge self).

Definition set_knowledge (self : t) (k : list Sentence.t) : t :=
  mk (height self) (width self) (moves_made self) (mines self) (safes self) k.

Definition mark_mine (self : t) (cell : Cell) : t :=
  mk (height self) (width self) (moves_made self)
     (mines self ++ [cell]) (safes self)
     (Sentence.mark_mine cell <$> knowledge self).

Definition mark_safe (self : t) (cell : Cell) : t :=
  mk (height self) (width self) (moves_made self)
     (mines self) (safes self ++ [cell])
     (Sentence.mark_safe cell <$> knowledge self).

(** [x in l] and [l.remove(x)] on a list of sentences; both compare with
    [Sentence.__eq__]. [remove] deletes the first equal element and raises
    [ValueError] when there is none. *)
Definition contains (l : list Sentence.t) (x : Sentence.t) : bool :=
  existsb (λ y, Sentence.eqb y x) l.

Fixpoint remove_first (x : Sentence.t) (l : list Sentence.t)
  : list Sentence.t :=
  match l with
  | [] => []
  | y :: l' => if Sentence.eqb y x then l' else y :: remove_first x l'
  end.

Definition list_remove (l : list Sentence.t) (x : Sentence.t)
  : py (list Sentence.t) :=
  if contains l x then Ret (remove_first x l) else Raise ValueError.

(** Lines 187-196: the body of the two nested loops at [(i, j)], on the
    pair of the local variables [cells] and [known_mines]. *)
Definition neighbour_step (self : t) (cell : Cell)
    (acc : list Cell * Z) (ij : Cell) : list Cell * Z :=
  if bool_decide (ij = cell) then acc
  else if bool_decide (0 ≤ ij.1) && bool_decide (ij.1 < height self)
          && bool_decide (0 ≤ ij.2) && bool_decide (ij.2 < width self)
  then (if bool_decide (ij ∉ safes self) then acc.1 ++ [ij] else acc.1,
        if bool_decide (ij ∈ mines self) then acc.2 + 1 else acc.2)
  else acc.

Definition scan_neighbours (self : t) (cell : Cell) : list Cell * Z :=
  foldl (λ acc i,
           foldl (λ acc j, neighbour_step self cell acc (i, j))
                 acc (py_range (cell.2 - 1) (cell.2 + 2)))
        ([], 0) (py_range (cell.1 - 1) (cell.1 + 2)).

(** Lines 183-199: record the move, mark the cell safe, build the new
    sentence and append it. *)
Definition new_sentence (self : t) (cell : Cell) (count : Z) : Sentence.t :=
  let '(cells, known_mines) := scan_neighbours self cell in
  Sentence.init cells (count - known_mines).

Definition record_move (self : t) (cell : Cell) (count : Z) : t :=
  let self := set_moves_made self (moves_made self ∪ {[cell]}) in
  let self := mark_safe self cell in
  set_knowledge self (knowledge self ++ [new_sentence self cell count]).

(** Lines 200-209: the loop that collects [safe_cells], [mine_cells] and
    [removed_sentences]. *)
Definition collect_step (acc : gset Cell * gset Cell * list Sentence.t)
    (sentence : Sentence.t) : gset Cell * gset Cell * list Sentence.t :=
  let '(safe_cells, mine_cells, removed_sentences) := acc in
  (safe_cells ∪ (Sentence.known_safes sentence).1,
   mine_cells ∪ (Sentence.known_mines sentence).1,
   if bool_decide (Sentence.cells sentence = ∅)
   then removed_sentences ++ [sentence] else removed_sentences).

Definition collect (k : list Sentence.t)
  : gset Cell * gset Cell * list Sentence.t :=
  foldl collect_step (∅, ∅, []) k.

(** Lines 219-228: the comparison of [knowledge[i]] with [knowledge[j]],
    on the pair of [removed_sentences_2] and [added_sentences]. *)
Definition pair_step (a : Sentence.t)
    (acc : list Sentence.t * list Sentence.t) (b : Sentence.t)
  : list Sentence.t * list Sentence.t :=
  if Sentence.eqb a b then (acc.1 ++ [b], acc.2)
  else if bool_decide (Sentence.cells a ∩ Sentence.cells b = Sentence.cells b)
  then (acc.1,
        acc.2 ++ [Sentence.mk (Sentence.cells a ∖ Sentence.cells b)
                              (Sentence.count a - Sentence.count b)])
  else if bool_decide (Sentence.cells b ∩ Sentence.cells a = Sentence.cells a)
  then (acc.1,
        acc.2 ++ [Sentence.mk (Sentence.cells b ∖ Sentence.cells a)
                              (Sentence.count b - Sentence.count a)])
  else acc.

(** The pairs [i < j] in the order of the loops: [knowledge[i]] against
    every later sentence, then the same for [i + 1]. *)
Fixpoint subset_pairs (k : list Sentence.t)
    (acc : list Sentence.t * list Sentence.t)
  : list Sentence.t * list Sentence.t :=
  match k with
  | [] => acc
  | a :: rest => subset_pairs rest (foldl (pair_step a) acc rest)
  end.

(** Lines 214-215: [remove] raises as soon as a sentence is missing. *)
Definition remove_each (k removed_sentences : list Sentence.t)
  : py (list Sentence.t) :=
  foldl (λ k sentence, k ← k; list_remove k sentence)
        (Ret k) removed_sentences.

Section Iteration.

Variable set_iter : gset Cell → list Cell.

(** Lines 200-235: one pass of simplification. *)
Definition simplify (self : t) : py t :=
  let '(safe_cells, mine_cells, removed_sentences) :=
    collect (knowledge self) in
  let self := foldl mark_safe self (set_iter safe_cells) in
  let self := foldl mark_mine self (set_iter mine_cells) in
  k ← remove_each (knowledge self) removed_sentences;
  let '(removed_sentences_2, added_sentences) := subset_pairs k ([], []) in
  let k := foldl (λ k sentence,
                    if contains k sentence then remove_first sentence k
                    else k) k removed_sentences_2 in
  let k := foldl (λ k sentence,
                    if negb (contains k sentence) then k ++ [sentence]
                    else k) k added_sentences in
  Ret (set_knowledge self k).

Definition add_knowledge (self : t) (cell : Cell) (count : Z) : py t :=
  simplify (record_move self cell count).

End Iteration.

Definition make_safe_move (self : t) : option Cell * t :=
  (snd <$> list_find
             (λ move, (move ∉ moves_made self) ∧ (move ∉ mines self))
             (safes self),
   self).

(** Lines 252-256 with the samples given: attempt [i] draws [draws i]. The
    two calls of [random.randrange] raise [ValueError] on an empty range. *)
Definition random_step (self : t) (draws : nat → Cell)
    (found : py (option Cell)) (i : Z) : py (option Cell) :=
  found ← found;
  match found with
  | Some move => Ret (Some move)
  | None =>
      if bool_decide (0 < height self) && bool_decide (0 < width self)
      then let move := draws (Z.to_nat i) in
           if bool_decide (move ∉ mines self)
              && bool_decide (move ∉ moves_made self)
           then Ret (Some move) else Ret None
      else Raise ValueError
  end.

Definition make_random_move (draws : nat → Cell) (self : t)
  : py (option Cell) * t :=
  (foldl (random_step self draws) (Ret None) (py_range 0 500), self).

(** Lines 263-267 with the samples given, as for [make_random_move]. The
    board is read before its neighbours are counted, and they are counted
    only where the board has no mine. *)
Definition very_safe_step (self : t) (minesweeper_obj : Minesweeper.t)
    (draws : nat → Cell) (found : py (option Cell)) (i : Z)
  : py (option Cell) :=
  found ← found;
  match found with
  | Some move => Ret (Some move)
  | None =>
      if bool_decide (0 < height self) && bool_decide (0 < width self)
      then let move := draws (Z.to_nat i) in
           row ← py_getitem (Minesweeper.board minesweeper_obj) move.1;
           b ← py_getitem row move.2;
           if negb b
           then n ← Minesweeper.nearby_mines minesweeper_obj move;
                if bool_decide (n = 0) then Ret (Some move) else Ret None
           else Ret None
      else Raise ValueError
  end.

Definition make_very_safe_move (draws : nat → Cell) (self : t)
    (minesweeper_obj : Minesweeper.t) : py (option Cell) * t :=
  (foldl (very_safe_step self minesweeper_obj draws) (Ret None)
         (py_range 0 500),
   self).

End MinesweeperAI.


(** * Vocabulary of the properties *)

(** *** Sequences of marking calls on a sentence *)

Definition invariant (s : Sentence.t) : Prop :=
  0 ≤ Sentence.count s ≤ Z.of_nat (size (Sentence.cells s)).

#[global] Instance invariant_dec s : Decision (invariant s).
Proof. unfold invariant. apply _. Defined.

Inductive call : Type :=
| MarkMine (c : Cell)
| MarkSafe (c : Cell).

Definition apply_call (s : Sentence.t) (op : call) : Sentence.t :=
  match op with
  | MarkMine c => Sentence.mark_mine c s
  | MarkSafe c => Sentence.mark_safe c s
  end.

(** The sentence after each call of a sequence, in order. *)
Fixpoint states_after (s : Sentence.t) (ops : list call) : list Sentence.t :=
  match ops with
  | [] => []
  | op :: ops' => apply_call s op :: states_after (apply_call s op) ops'
  end.

(** A call that removes a cell is made on a sentence that can afford it: a
    mine is marked while a mine is still counted, a safe cell while not every
    remaining cell is a mine. *)
Definition affordable (s : Sentence.t) (op : call) : Prop :=
  match op with
  | MarkMine c => c ∈ Sentence.cells s → 1 ≤ Sentence.count s
  | MarkSafe c =>
      c ∈ Sentence.cells s
      → Sentence.count s < Z.of_nat (size (Sentence.cells s))
  end.

Fixpoint all_affordable (s : Sentence.t) (ops : list call) : Prop :=
  match ops with
  | [] => True
  | op :: ops' => affordable s op ∧ all_affordable (apply_call s op) ops'
  end.

(** *** Random moves *)

(** The loop of [make_random_move] after its first [n] attempts. *)
Definition attempts (draws : nat → Cell) (st : MinesweeperAI.t) (n : nat)
  : py (option Cell) :=
  foldl (MinesweeperAI.random_step st draws) (Ret None)
        ((λ k : nat, 0 + Z.of_nat k) <$> seq 0 n).

(** *** Neighbours *)

(** The cells one row and one column around [cell], in the order of the two
    loops. *)
Definition window (cell : Cell) : list Cell :=
  i ← [cell.1 - 1; cell.1; cell.1 + 1];
  j ← [cell.2 - 1; cell.2; cell.2 + 1];
  [(i, j)].

Definition in_bounds (self : MinesweeperAI.t) (ij : Cell) : Prop :=
  (0 ≤ ij.1 < MinesweeperAI.height self)
  ∧ (0 ≤ ij.2 < MinesweeperAI.width self).

(** The neighbours of [cell]: the cells of its window on the board, [cell]
    itself left out. *)
Definition neighbours (self : MinesweeperAI.t) (cell : Cell) : list Cell :=
  filter (λ ij, ij ≠ cell ∧ in_bounds self ij) (window cell).

Definition unknown_neighbours (self : MinesweeperAI.t) (cell : Cell)
  : gset Cell :=
  list_to_set (filter (λ ij, ij ∉ MinesweeperAI.safes self)
                      (neighbours self cell)).

Definition known_mine_neighbours (self : MinesweeperAI.t) (cell : Cell) : Z :=
  Z.of_nat (length (filter (λ ij, ij ∈ MinesweeperAI.mines self)
                           (neighbours self cell))).

(** *** One pass of simplification *)

Definition safe_cells (k : list Sentence.t) : gset Cell :=
  ⋃ ((λ s, (Sentence.known_safes s).1) <$> k).

Definition mine_cells (k : list Sentence.t) : gset Cell :=
  ⋃ ((λ s, (Sentence.known_mines s).1) <$> k).

Definition empty_sentences (k : list Sentence.t) : list Sentence.t :=
  filter (λ s, Sentence.cells s = ∅) k.

(** A sentence the pass has nothing to do with: it has cells, and neither
    [count == 0] nor [count == len(cells)]. *)
Definition unresolved (s : Sentence.t) : bool :=
  negb (bool_decide (Sentence.cells s = ∅))
  && negb (bool_decide (Sentence.count s = 0))
  && negb (bool_decide (Z.of_nat (size (Sentence.cells s)) = Sentence.count s)).

(** Two sentences of which neither's cells include the other's. *)
Definition unrelated (a b : Sentence.t) : bool :=
  negb (bool_decide (Sentence.cells b ⊆ Sentence.cells a))
  && negb (bool_decide (Sentence.cells a ⊆ Sentence.cells b)).

Fixpoint pairwise_unrelated (k : list Sentence.t) : bool :=
  match k with
  | [] => true
  | a :: rest => forallb (unrelated a) rest && pairwise_unrelated rest
  end.

Definition settled (self : MinesweeperAI.t) : bool :=
  forallb unresolved (MinesweeperAI.knowledge self)
  && pairwise_unrelated (MinesweeperAI.knowledge self).

(** The agent after the two marking loops of lines 210-213. *)
Definition marked (set_iter : gset Cell → list Cell) (self : MinesweeperAI.t)
  : MinesweeperAI.t :=
  foldl MinesweeperAI.mark_mine
        (foldl MinesweeperAI.mark_safe self
               (set_iter (safe_cells (MinesweeperAI.knowledge self))))
        (set_iter (mine_cells (MinesweeperAI.knowledge self))).

(** A sentence without cells stays as it is. *)
Definition keeps_empty (s s' : Sentence.t) : Prop :=
  Sentence.cells s = ∅ → s' = s.

(** The last part of the pass, lines 216-235, on the list [knowledge]. *)
Definition resolve_subsets (k : list Sentence.t) : list Sentence.t :=
  let '(removed_sentences_2, added_sentences) :=
    MinesweeperAI.subset_pairs k ([], []) in
  let k := foldl (λ k sentence,
                    if MinesweeperAI.contains k sentence
                    then MinesweeperAI.remove_first sentence k
                    else k) k removed_sentences_2 in
  foldl (λ k sentence,
           if negb (MinesweeperAI.contains k sentence) then k ++ [sentence]
           else k) k added_sentences.

(** *** A board of one row *)

(** The agent on a 3 x 3 board after [(2,2)] was revealed with count 0. *)
Definition after_corner_reveal : MinesweeperAI.t :=
  MinesweeperAI.mk 3 3 {[(2, 2)]} [] [(2, 2); (1, 2); (1, 1); (2, 1)]
                   [Sentence.mk ∅ 0].

Definition board_1x3 : Minesweeper.t :=
  Minesweeper.mk 1 3 [[false; true; false]].

(** The agent on [board_1x3] after [(0,0)] was revealed with count 1: it
    knows [(0,1)] is a mine. *)
Definition after_first_reveal : MinesweeperAI.t :=
  MinesweeperAI.mk 1 3 {[(0, 0)]} [(0, 1)] [(0, 0)] [Sentence.mk ∅ 0].

(** *** What a sentence says of a placement of mines

    [holds M s]: exactly [count] of the cells of [s] are mines of [M], the
    reading the class gives a sentence (lines 87-91). *)
Definition holds (M : gset Cell) (s : Sentence.t) : Prop :=
  Z.of_nat (size (Sentence.cells s ∩ M)) = Sentence.count s.

(** An agent that is right about [M]: no cell of [safes] is a mine, every
    cell of [mines] is, and every sentence of [knowledge] holds. *)
Definition sound (M : gset Cell) (self : MinesweeperAI.t) : Prop :=
  Forall (λ c, c ∉ M) (MinesweeperAI.safes self)
  ∧ Forall (λ c, c ∈ M) (MinesweeperAI.mines self)
  ∧ Forall (holds M) (MinesweeperAI.knowledge self).

#[global] Instance holds_dec M s : Decision (holds M s).
Proof. unfold holds. apply _. Defined.

#[global] Instance sound_dec M self : Decision (sound M self).
Proof. unfold sound. apply _. Defined.

(** The mines among the neighbours of [cell]. *)
Definition mined_neighbours (M : gset Cell) (self : MinesweeperAI.t)
    (cell : Cell) : gset Cell :=
  list_to_set (neighbours self cell) ∩ M.

(** A game as the agent sees it: the cells revealed, each with the count
    reported for it, handed to [add_knowledge] in order. *)
Fixpoint reveal_all (set_iter : gset Cell → list Cell)
    (self : MinesweeperAI.t) (reveals : list (Cell * Z)) : py MinesweeperAI.t :=
  match reveals with
  | [] => Ret self
  | (cell, count) :: rest =>
      self ← MinesweeperAI.add_knowledge set_iter self cell count;
      reveal_all set_iter self rest
  end.

(** *** Boards *)

(** A board as [Minesweeper.__init__] builds it: [height] rows of [width]
    entries. *)
Definition well_formed (b : Minesweeper.t) : Prop :=
  Z.of_nat (length (Minesweeper.board b)) = Minesweeper.height b
  ∧ Forall (λ row, Z.of_nat (length row) = Minesweeper.width b)
           (Minesweeper.board b).

Definition on_board (b : Minesweeper.t) (ij : Cell) : Prop :=
  (0 ≤ ij.1 < Minesweeper.height b) ∧ (0 ≤ ij.2 < Minesweeper.width b).

(** The entry of the board at a cell, [false] off the board. *)
Definition mine_at (b : Minesweeper.t) (ij : Cell) : bool :=
  match Minesweeper.board b !! Z.to_nat ij.1 with
  | Some row => default false (row !! Z.to_nat ij.2)
  | None => false
  end.

(** [M] is the set of the mines of the board [b]. *)
Definition placement_of (b : Minesweeper.t) (M : gset Cell) : Prop :=
  ∀ ij, ij ∈ M ↔ on_board b ij ∧ Minesweeper.is_mine b ij = Ret true.

(** A cell [make_random_move] accepts. *)
Definition playable (self : MinesweeperAI.t) (move : Cell) : Prop :=
  (move ∉ MinesweeperAI.mines self) ∧ (move ∉ MinesweeperAI.moves_made self).

(** A cell [make_very_safe_move] accepts: the board has no mine there and
    none next to it. *)
Definition very_safe (b : Minesweeper.t) (move : Cell) : Prop :=
  Minesweeper.is_mine b move = Ret false
  ∧ Minesweeper.nearby_mines b move = Ret 0.

(** The cells of a board of [h] rows and [w] columns. *)
Definition board_cells (h w : Z) : list Cell :=
  i ← seqZ 0 h; j ← seqZ 0 w; [(i, j)].

(** What the loop of [Minesweeper.__init__] keeps: the board has its
    shape, and [mines] is the set of its [True] entries. *)
Definition laid (h w : Z) (board : list (list bool)) (mines : gset Cell)
  : Prop :=
  well_formed (Minesweeper.mk h w board)
  ∧ placement_of (Minesweeper.mk h w board) mines.

(** The loop of [make_very_safe_move] after its first [n] attempts. *)
Definition safe_attempts (draws : nat → Cell) (st : MinesweeperAI.t)
    (b : Minesweeper.t) (n : nat) : py (option Cell) :=
  foldl (MinesweeperAI.very_safe_step st b draws) (Ret None)
        ((λ k : nat, 0 + Z.of_nat k) <$> seq 0 n).

(** *** Proof by evaluation, for closed statements *)

Ltac evaluate := vm_compute; reflexivity.
Ltac decide_by_evaluation := apply (bool_decide_unpack _); vm_compute; exact I.

(** * Properties *)

(** ** Sentences *)

Section SentenceFacts.

Implicit Types (s : Sentence.t) (c : Cell).

Lemma eqb_eq s1 s2 : Sentence.eqb s1 s2 = true ↔ s1 = s2.
Proof.
  unfold Sentence.eqb. rewrite andb_true_iff, !bool_decide_eq_true.
  destruct s1, s2; simpl. split; [intros [-> ->] | intros [=]]; auto.
Qed.

Lemma eqb_refl s : Sentence.eqb s s = true.
Proof. by apply eqb_eq. Qed.

Lemma eqb_neq s1 s2 : Sentence.eqb s1 s2 = false ↔ s1 ≠ s2.
Proof. rewrite <- eqb_eq. by destruct (Sentence.eqb s1 s2). Qed.

Lemma size_remove_cell (X : gset Cell) c :
  c ∈ X → Z.of_nat (size (X ∖ {[c]})) = Z.of_nat (size X) - 1.
Proof.
  intros Hc. rewrite size_difference by set_solver.
  rewrite size_singleton.
  assert (size X ≠ 0%nat) by (intros ?%size_empty_inv; set_solver).
  lia.
Qed.

Lemma mark_safe_absent s c :
  c ∉ Sentence.cells s → Sentence.mark_safe c s = s.
Proof. intros H. unfold Sentence.mark_safe. by rewrite bool_decide_eq_false_2. Qed.

Lemma mark_mine_absent s c :
  c ∉ Sentence.cells s → Sentence.mark_mine c s = s.
Proof. intros H. unfold Sentence.mark_mine. by rewrite bool_decide_eq_false_2. Qed.

Lemma mark_safe_cells s c :
  Sentence.cells (Sentence.mark_safe c s) = Sentence.cells s ∖ {[c]}.
Proof. unfold Sentence.mark_safe. case_bool_decide; simpl; set_solver. Qed.

Lemma mark_mine_cells s c :
  Sentence.cells (Sentence.mark_mine c s) = Sentence.cells s ∖ {[c]}.
Proof. unfold Sentence.mark_mine. case_bool_decide; simpl; set_solver. Qed.

Lemma mark_safe_count s c :
  Sentence.count (Sentence.mark_safe c s) = Sentence.count s.
Proof. unfold Sentence.mark_safe. by case_bool_decide. Qed.

Lemma mark_safe_twice s c :
  Sentence.mark_safe c (Sentence.mark_safe c s) = Sentence.mark_safe c s.
Proof. apply mark_safe_absent. rewrite mark_safe_cells. set_solver. Qed.

Lemma mark_mine_twice s c :
  Sentence.mark_mine c (Sentence.mark_mine c s) = Sentence.mark_mine c s.
Proof. apply mark_mine_absent. rewrite mark_mine_cells. set_solver. Qed.

End SentenceFacts.

(** *** What a sentence knows (lines 103-119) *)

(** C7. [known_mines] returns the cell-set when [len(cells) == count] and the
    empty set otherwise; [known_safes] returns the cell-set when [count == 0]
    and the empty set otherwise; neither changes the sentence. So
    [known_mines] is non-empty only when [count = |cells| > 0], and
    [known_safes] only when [count = 0] and [|cells| > 0]. *)
Theorem known_mines_known_safes_spec (s : Sentence.t) :
  let n := Z.of_nat (size (Sentence.cells s)) in
  (n = Sentence.count s → (Sentence.known_mines s).1 = Sentence.cells s)
  ∧ (n ≠ Sentence.count s → (Sentence.known_mines s).1 = ∅)
  ∧ (Sentence.count s = 0 → (Sentence.known_safes s).1 = Sentence.cells s)
  ∧ (Sentence.count s ≠ 0 → (Sentence.known_safes s).1 = ∅)
  ∧ (Sentence.known_mines s).2 = s
  ∧ (Sentence.known_safes s).2 = s
  ∧ ((Sentence.known_mines s).1 ≠ ∅ → Sentence.count s = n ∧ 0 < n)
  ∧ ((Sentence.known_safes s).1 ≠ ∅ → Sentence.count s = 0 ∧ 0 < n).
Proof.
  intros n. unfold Sentence.known_mines, Sentence.known_safes; simpl.
  assert (Hpos : Sentence.cells s ≠ ∅ → 0 < n).
  { intros Hne. subst n.
    destruct (decide (size (Sentence.cells s) = 0%nat)) as [H0 | H0]; [| lia].
    apply size_empty_inv in H0. by fold_leibniz. }
  split_and!; try done.
  - intros H. by rewrite bool_decide_eq_true_2.
  - intros H. by rewrite bool_decide_eq_false_2.
  - intros H. by rewrite bool_decide_eq_true_2.
  - intros H. by rewrite bool_decide_eq_false_2.
  - case_bool_decide; [auto | by intros []].
  - case_bool_decide; [auto | by intros []].
Qed.

(** *** The invariant [0 ≤ count ≤ |cells|] under marking (lines 121-136) *)

Lemma invariant_step s op :
  invariant s → (invariant (apply_call s op) ↔ affordable s op).
Proof.
  unfold invariant. intros Hs.
  destruct op as [c | c]; simpl;
    (destruct (decide (c ∈ Sentence.cells s)) as [Hin | Hout];
     [| rewrite ?mark_mine_absent, ?mark_safe_absent by done; tauto]).
  - unfold Sentence.mark_mine. rewrite bool_decide_eq_true_2 by done. simpl.
    rewrite size_remove_cell by done. split; [lia | intros H; specialize (H Hin); lia].
  - unfold Sentence.mark_safe. rewrite bool_decide_eq_true_2 by done. simpl.
    rewrite size_remove_cell by done. split; [lia | intros H; specialize (H Hin); lia].
Qed.

(** C5, as the code has it. From a sentence with [0 ≤ count ≤ |cells|], the
    invariant holds after each call of a sequence of [mark_mine] and
    [mark_safe] exactly when each call is affordable where it is made:
    [mark_mine(c)] with [c] in the cells needs [count ≥ 1], [mark_safe(c)]
    with [c] in the cells needs [count < |cells|]. The sentence checks
    neither. *)
Theorem invariant_after_affordable_calls (s : Sentence.t) (ops : list call) :
  invariant s →
  (Forall invariant (states_after s ops) ↔ all_affordable s ops).
Proof.
  revert s. induction ops as [| op ops IH]; intros s Hs; simpl.
  - split; auto.
  - rewrite Forall_cons. split.
    + intros [H1 H2]. split; [by apply invariant_step | by apply IH].
    + intros [H1 H2].
      assert (invariant (apply_call s op)) by by apply invariant_step.
      split; [done | by apply IH].
Qed.

Lemma invariant_after_affordable_calls_witness :
  Forall invariant
    (states_after (Sentence.mk {[(0, 0); (0, 1)]} 1)
                  [MarkSafe (0, 0); MarkSafe (5, 5); MarkMine (0, 1)])
  ↔ all_affordable (Sentence.mk {[(0, 0); (0, 1)]} 1)
                   [MarkSafe (0, 0); MarkSafe (5, 5); MarkMine (0, 1)].
Proof.
  apply (invariant_after_affordable_calls
           (Sentence.mk {[(0, 0); (0, 1)]} 1)
           [MarkSafe (0, 0); MarkSafe (5, 5); MarkMine (0, 1)]).
  vm_compute. split; discriminate.
Defined.

(** C5 as stated fails: [{(0,0)} = 1] satisfies the invariant, and
    [mark_safe((0,0))] leaves [{} = 1]. *)
Lemma invariant_broken_by_mark_safe :
  invariant (Sentence.mk {[(0, 0)]} 1)
  ∧ ¬ Forall invariant
        (states_after (Sentence.mk {[(0, 0)]} 1) [MarkSafe (0, 0)]).
Proof.
  split.
  - vm_compute. split; discriminate.
  - intros H. apply Forall_cons in H as [H _].
    vm_compute in H. destruct H as [_ H]. by apply H.
Qed.

(** The same for [mark_mine]: [{(0,0)} = 0] becomes [{} = -1]. *)
Lemma invariant_broken_by_mark_mine :
  invariant (Sentence.mk {[(0, 0)]} 0)
  ∧ ¬ invariant (Sentence.mark_mine (0, 0) (Sentence.mk {[(0, 0)]} 0)).
Proof.
  split.
  - vm_compute. split; discriminate.
  - intros H. vm_compute in H. destruct H as [H _]. by apply H.
Qed.

(** ** The agent: marking and move selection *)

Section AgentFacts.

Import MinesweeperAI.
Implicit Types (st : MinesweeperAI.t) (c : Cell).

Lemma set_knowledge_same st : set_knowledge st (knowledge st) = st.
Proof. by destruct st. Qed.

Lemma marks_shrink_safe c (k : list Sentence.t) :
  Forall2 (λ s s', Sentence.cells s' ⊆ Sentence.cells s
                   ∧ Sentence.count s' = Sentence.count s)
          k (Sentence.mark_safe c <$> k).
Proof.
  induction k as [| s k IH]; simpl; constructor; [| done].
  rewrite mark_safe_cells, mark_safe_count. set_solver.
Qed.

Lemma marks_shrink_mine c (k : list Sentence.t) :
  Forall2 (λ s s', Sentence.cells s' ⊆ Sentence.cells s
                   ∧ (Sentence.count s' = Sentence.count s
                      ∨ Sentence.count s' = Sentence.count s - 1))
          k (Sentence.mark_mine c <$> k).
Proof.
  induction k as [| s k IH]; simpl; constructor; [| done].
  rewrite mark_mine_cells. split; [set_solver |].
  unfold Sentence.mark_mine. case_bool_decide; simpl; auto.
Qed.

Lemma make_safe_move_Some st c :
  (make_safe_move st).1 = Some c →
  c ∈ safes st ∧ (c ∉ moves_made st) ∧ (c ∉ mines st).
Proof.
  unfold make_safe_move; simpl. intros H.
  apply fmap_Some in H as [[i x] [H ->]].
  apply list_find_Some in H as (Hi & [? ?] & _). simpl.
  split; [by eapply list_elem_of_lookup_2 | done].
Qed.

Lemma make_safe_move_None st :
  (make_safe_move st).1 = None ↔
  ∀ c, c ∈ safes st → c ∈ moves_made st ∨ c ∈ mines st.
Proof.
  unfold make_safe_move; simpl. rewrite fmap_None, list_find_None, Forall_forall.
  split; intros H c Hc; specialize (H c Hc).
  - destruct (decide (c ∈ moves_made st)); [by left |].
    destruct (decide (c ∈ mines st)); [by right | tauto].
  - intros [? ?]. tauto.
Qed.

End AgentFacts.

(** C6, as the code has it. [safes] and [mines] are lists and [mark_safe],
    [mark_mine] append to them: a second call with the same cell appends the
    cell once more and changes nothing else, so the agent after two calls has
    the members of [safes] (of [mines]), and every other field, of the agent
    after one. *)
Theorem mark_twice_same_members (st : MinesweeperAI.t) (c : Cell) :
  let once := MinesweeperAI.mark_safe st c in
  let twice := MinesweeperAI.mark_safe once c in
  let once' := MinesweeperAI.mark_mine st c in
  let twice' := MinesweeperAI.mark_mine once' c in
  (twice = MinesweeperAI.mk
             (MinesweeperAI.height once) (MinesweeperAI.width once)
             (MinesweeperAI.moves_made once) (MinesweeperAI.mines once)
             (MinesweeperAI.safes once ++ [c]) (MinesweeperAI.knowledge once)
   ∧ ∀ x, x ∈ MinesweeperAI.safes twice ↔ x ∈ MinesweeperAI.safes once)
  ∧ (twice' = MinesweeperAI.mk
                (MinesweeperAI.height once') (MinesweeperAI.width once')
                (MinesweeperAI.moves_made once')
                (MinesweeperAI.mines once' ++ [c])
                (MinesweeperAI.safes once') (MinesweeperAI.knowledge once')
     ∧ ∀ x, x ∈ MinesweeperAI.mines twice' ↔ x ∈ MinesweeperAI.mines once').
Proof.
  simpl. unfold MinesweeperAI.mark_safe, MinesweeperAI.mark_mine; simpl.
  split; (split; [f_equal | intros x; set_solver]).
  - rewrite <- list_fmap_compose. apply list_fmap_ext. intros _ s _. simpl.
    apply mark_safe_twice.
  - rewrite <- list_fmap_compose. apply list_fmap_ext. intros _ s _. simpl.
    apply mark_mine_twice.
Qed.

(** C6 as stated fails: on a fresh agent, two calls of [mark_safe((0,0))]
    leave [safes = [(0,0), (0,0)]], one call leaves [safes = [(0,0)]]. *)
Lemma mark_safe_twice_differs :
  MinesweeperAI.mark_safe
    (MinesweeperAI.mark_safe (MinesweeperAI.init 8 8) (0, 0)) (0, 0)
  ≠ MinesweeperAI.mark_safe (MinesweeperAI.init 8 8) (0, 0).
Proof. intros H. apply (f_equal MinesweeperAI.safes) in H. discriminate H. Qed.

Lemma mark_mine_twice_differs :
  MinesweeperAI.mark_mine
    (MinesweeperAI.mark_mine (MinesweeperAI.init 8 8) (0, 0)) (0, 0)
  ≠ MinesweeperAI.mark_mine (MinesweeperAI.init 8 8) (0, 0).
Proof. intros H. apply (f_equal MinesweeperAI.mines) in H. discriminate H. Qed.

(** C8. A cell returned by [make_safe_move] is in [safes], not in
    [moves_made] and not in [mines]; the call leaves the agent as it was, and
    a second call on it returns the same result. *)
Theorem make_safe_move_sound (st : MinesweeperAI.t) :
  (∀ c, (MinesweeperAI.make_safe_move st).1 = Some c →
        c ∈ MinesweeperAI.safes st
        ∧ (c ∉ MinesweeperAI.moves_made st)
        ∧ (c ∉ MinesweeperAI.mines st))
  ∧ (MinesweeperAI.make_safe_move st).2 = st
  ∧ (MinesweeperAI.make_safe_move (MinesweeperAI.make_safe_move st).2).1
    = (MinesweeperAI.make_safe_move st).1.
Proof.
  split; [| done]. intros c. apply make_safe_move_Some.
Qed.

(** C10. [make_safe_move] returns [None] exactly when every cell of [safes]
    is in [moves_made] or in [mines]. The agent's [mark_safe] and [mark_mine]
    leave [moves_made] alone and keep the sentences of [knowledge] in place,
    one for one: each keeps a subset of its cells, and [mark_safe] keeps each
    count. *)
Theorem move_and_mark_frame (st : MinesweeperAI.t) (c : Cell) :
  ((MinesweeperAI.make_safe_move st).1 = None ↔
   ∀ x, x ∈ MinesweeperAI.safes st →
        x ∈ MinesweeperAI.moves_made st ∨ x ∈ MinesweeperAI.mines st)
  ∧ MinesweeperAI.moves_made (MinesweeperAI.mark_safe st c)
    = MinesweeperAI.moves_made st
  ∧ MinesweeperAI.moves_made (MinesweeperAI.mark_mine st c)
    = MinesweeperAI.moves_made st
  ∧ length (MinesweeperAI.knowledge (MinesweeperAI.mark_safe st c))
    = length (MinesweeperAI.knowledge st)
  ∧ length (MinesweeperAI.knowledge (MinesweeperAI.mark_mine st c))
    = length (MinesweeperAI.knowledge st)
  ∧ Forall2 (λ s s', Sentence.cells s' ⊆ Sentence.cells s
                     ∧ Sentence.count s' = Sentence.count s)
            (MinesweeperAI.knowledge st)
            (MinesweeperAI.knowledge (MinesweeperAI.mark_safe st c))
  ∧ Forall2 (λ s s', Sentence.cells s' ⊆ Sentence.cells s)
            (MinesweeperAI.knowledge st)
            (MinesweeperAI.knowledge (MinesweeperAI.mark_mine st c)).
Proof.
  split_and!; simpl; try done.
  - apply make_safe_move_None.
  - by rewrite length_fmap.
  - by rewrite length_fmap.
  - apply marks_shrink_safe.
  - eapply Forall2_impl; [apply marks_shrink_mine |]. by intros s s' [? _].
Qed.

(** ** Random moves (lines 248-256) *)

Section RandomMove.

Import MinesweeperAI.
Variables (draws : nat → Cell) (st : MinesweeperAI.t).

Lemma attempts_S n :
  attempts draws st (S n) = random_step st draws (attempts draws st n) (Z.of_nat n).
Proof.
  unfold attempts. rewrite seq_S, fmap_app, foldl_app. simpl.
  by rewrite Z.add_0_l.
Qed.

Lemma make_random_move_attempts :
  (make_random_move draws st).1 = attempts draws st 500.
Proof. reflexivity. Qed.

Lemma attempts_Some n c :
  attempts draws st n = Ret (Some c) → (c ∉ mines st) ∧ (c ∉ moves_made st).
Proof.
  induction n as [| n IH]; [discriminate |].
  rewrite attempts_S. unfold random_step.
  destruct (attempts draws st n) as [[c' |] | e]; simpl.
  - intros [= ->]. by apply IH.
  - rewrite Nat2Z.id.
    destruct (bool_decide (0 < height st) && bool_decide (0 < width st));
      [| discriminate].
    destruct (bool_decide_reflect (draws n ∉ mines st)); simpl;
      [| discriminate].
    destruct (bool_decide_reflect (draws n ∉ moves_made st)); simpl;
      [| discriminate].
    by intros [= <-].
  - discriminate.
Qed.

Lemma attempts_None n :
  attempts draws st n = Ret None →
  ∀ i, (i < n)%nat → draws i ∈ mines st ∨ draws i ∈ moves_made st.
Proof.
  induction n as [| n IH]; [intros _ i; lia |].
  rewrite attempts_S. unfold random_step.
  destruct (attempts draws st n) as [[c' |] | e]; simpl; [discriminate | | discriminate].
  rewrite Nat2Z.id.
  destruct (bool_decide (0 < height st) && bool_decide (0 < width st));
    [| discriminate].
  intros H i Hi.
  destruct (decide (i = n)) as [-> | Hne]; [| apply IH; [done | lia]].
  destruct (decide (draws n ∈ mines st)); [by left |].
  destruct (decide (draws n ∈ moves_made st)); [by right |].
  by rewrite !bool_decide_eq_true_2 in H.
Qed.

(** On a board without rows or without columns the first sample raises. *)
Lemma attempts_empty_board n :
  ¬ (0 < height st ∧ 0 < width st) → attempts draws st (S n) = Raise ValueError.
Proof.
  intros Hb. induction n as [| n IH].
  - rewrite attempts_S. unfold attempts, random_step; simpl.
    destruct (bool_decide_reflect (0 < height st)); simpl; [| done].
    destruct (bool_decide_reflect (0 < width st)); simpl; [tauto | done].
  - rewrite attempts_S, IH. done.
Qed.

End RandomMove.

(** C9. For every sequence of sampled cells, a cell returned by
    [make_random_move] is neither in [mines] nor in [moves_made], and the
    call returns [None] only when every one of the 500 attempts sampled a
    cell in [mines] or in [moves_made]. *)
Theorem make_random_move_sound (draws : nat → Cell) (st : MinesweeperAI.t) :
  (∀ c, (MinesweeperAI.make_random_move draws st).1 = Ret (Some c) →
        (c ∉ MinesweeperAI.mines st) ∧ (c ∉ MinesweeperAI.moves_made st))
  ∧ ((MinesweeperAI.make_random_move draws st).1 = Ret None →
     ∀ i, (i < 500)%nat →
          draws i ∈ MinesweeperAI.mines st
          ∨ draws i ∈ MinesweeperAI.moves_made st)
  ∧ (MinesweeperAI.make_random_move draws st).2 = st.
Proof.
  rewrite make_random_move_attempts. split_and!; [| | done].
  - intros c. apply attempts_Some.
  - apply attempts_None.
Qed.

(** ** The new sentence (lines 185-199) *)

Section NewSentence.

Import MinesweeperAI.
Implicit Types (st : MinesweeperAI.t) (c : Cell).

Lemma py_range_3 (x : Z) : py_range (x - 1) (x + 2) = [x - 1; x; x + 1].
Proof.
  unfold py_range. replace (x + 2 - (x - 1)) with 3 by lia.
  change (Z.to_nat 3) with 3%nat. cbn [seq fmap list_fmap].
  f_equal; [lia | f_equal; [lia | f_equal; lia]].
Qed.

Lemma neighbour_step_spec st c acc ij :
  neighbour_step st c acc ij =
  if decide (ij ≠ c ∧ in_bounds st ij)
  then (if decide (ij ∉ safes st) then acc.1 ++ [ij] else acc.1,
        if decide (ij ∈ mines st) then acc.2 + 1 else acc.2)
  else acc.
Proof.
  unfold neighbour_step, in_bounds.
  destruct (bool_decide_reflect (ij = c)) as [-> | Hne].
  { rewrite decide_False; [done | tauto]. }
  destruct (bool_decide_reflect (0 ≤ ij.1)), (bool_decide_reflect (ij.1 < height st)),
    (bool_decide_reflect (0 ≤ ij.2)), (bool_decide_reflect (ij.2 < width st));
    simpl; try (rewrite decide_False; [done | lia]).
  rewrite decide_True by (split; [done | lia]).
  f_equal.
  - destruct (bool_decide_reflect (ij ∉ safes st));
      [by rewrite decide_True | by rewrite decide_False].
  - destruct (bool_decide_reflect (ij ∈ mines st));
      [by rewrite decide_True | by rewrite decide_False].
Qed.

Lemma neighbour_fold st c (l : list Cell) acc :
  foldl (neighbour_step st c) acc l =
  (acc.1 ++ filter (λ ij, ij ∉ safes st)
                   (filter (λ ij, ij ≠ c ∧ in_bounds st ij) l),
   acc.2 + Z.of_nat (length (filter (λ ij, ij ∈ mines st)
                       (filter (λ ij, ij ≠ c ∧ in_bounds st ij) l)))).
Proof.
  revert acc. induction l as [| ij l IH]; intros [cs km]; simpl.
  { by rewrite app_nil_r, Z.add_0_r. }
  rewrite IH, neighbour_step_spec.
  repeat (rewrite filter_cons || case_decide); simpl; try tauto;
    rewrite <- ?app_assoc; simpl; f_equal; lia.
Qed.

(** Two nested loops visit the pairs in the order of the list monad. *)
Lemma foldl_nested {A} (f : A → Cell → A) (rows cols : list Z) (acc : A) :
  foldl (λ acc i, foldl (λ acc j, f acc (i, j)) acc cols) acc rows =
  foldl f acc (i ← rows; j ← cols; [(i, j)]).
Proof.
  revert acc. induction rows as [| i rows IH]; intros acc; [done |].
  cbn [foldl mbind list_bind]. rewrite foldl_app, <- IH. f_equal.
  clear IH. revert acc. induction cols as [| j cols IH]; intros acc; [done |].
  cbn [foldl mbind list_bind app]. apply IH.
Qed.

(** The loops of lines 187-196 leave in [cells] every neighbour that is not
    in [safes], whether or not it is in [mines], and in [known_mines] the
    number of neighbours in [mines]. *)
Lemma scan_neighbours_spec st c :
  scan_neighbours st c =
  (filter (λ ij, ij ∉ safes st) (neighbours st c),
   Z.of_nat (length (filter (λ ij, ij ∈ mines st) (neighbours st c)))).
Proof.
  unfold scan_neighbours. rewrite !py_range_3.
  rewrite (foldl_nested (neighbour_step st c)).
  fold (window c). by rewrite neighbour_fold.
Qed.

Lemma cell_not_neighbour st c : c ∉ neighbours st c.
Proof. unfold neighbours. rewrite list_elem_of_filter. tauto. Qed.

Lemma neighbours_mark_safe st c c' :
  neighbours (mark_safe st c') c = neighbours st c.
Proof. reflexivity. Qed.

Lemma unknown_neighbours_self st c m :
  unknown_neighbours (mark_safe (set_moves_made st m) c) c
  = unknown_neighbours st c.
Proof.
  unfold unknown_neighbours. apply set_eq. intros x.
  rewrite !elem_of_list_to_set, !list_elem_of_filter. simpl.
  change (neighbours _ c) with (neighbours st c).
  rewrite elem_of_app, list_elem_of_singleton.
  pose proof (cell_not_neighbour st c). split; [tauto |].
  intros [? ?]. split; [| done]. intros [? | ->]; tauto.
Qed.

Lemma record_move_spec st c n :
  record_move st c n =
  mk (height st) (width st) (moves_made st ∪ {[c]}) (mines st)
     (safes st ++ [c])
     ((Sentence.mark_safe c <$> knowledge st)
      ++ [Sentence.mk (unknown_neighbours st c)
                      (n - known_mine_neighbours st c)]).
Proof.
  unfold record_move, new_sentence. rewrite scan_neighbours_spec.
  unfold set_knowledge, Sentence.init; simpl. do 4 f_equal.
  apply (unknown_neighbours_self st c).
Qed.

End NewSentence.

(** ** One pass of simplification (lines 200-235) *)

Section Pass.

Import MinesweeperAI.
Implicit Types (st : MinesweeperAI.t) (c : Cell) (k : list Sentence.t).

Lemma collect_fold k S M R :
  foldl collect_step (S, M, R) k =
  (S ∪ safe_cells k, M ∪ mine_cells k, R ++ empty_sentences k).
Proof.
  revert S M R. induction k as [| s k IH]; intros S M R; simpl.
  - unfold safe_cells, mine_cells; simpl.
    by rewrite !(right_id_L ∅ (∪)), app_nil_r.
  - rewrite IH. unfold safe_cells, mine_cells, empty_sentences; simpl.
    rewrite filter_cons, !(assoc_L (∪)).
    destruct (bool_decide_reflect (Sentence.cells s = ∅));
      [rewrite decide_True by done | rewrite decide_False by done];
      by rewrite <- ?app_assoc.
Qed.

Lemma collect_spec k :
  collect k = (safe_cells k, mine_cells k, empty_sentences k).
Proof.
  unfold collect. rewrite collect_fold. by rewrite !(left_id_L ∅ (∪)).
Qed.

Lemma elem_of_mine_cells c k :
  c ∈ mine_cells k ↔
  ∃ s, s ∈ k ∧ Z.of_nat (size (Sentence.cells s)) = Sentence.count s
       ∧ c ∈ Sentence.cells s.
Proof.
  unfold mine_cells. rewrite elem_of_union_list. split.
  - intros (X & HX & Hc). apply list_elem_of_fmap in HX as (s & -> & Hs).
    exists s. unfold Sentence.known_mines in Hc; simpl in Hc.
    case_bool_decide; [done | set_solver].
  - intros (s & Hs & Hn & Hc). exists (Sentence.known_mines s).1. split.
    + apply list_elem_of_fmap. by exists s.
    + unfold Sentence.known_mines; simpl. by rewrite bool_decide_eq_true_2.
Qed.

Lemma elem_of_safe_cells c k :
  c ∈ safe_cells k ↔
  ∃ s, s ∈ k ∧ Sentence.count s = 0 ∧ c ∈ Sentence.cells s.
Proof.
  unfold safe_cells. rewrite elem_of_union_list. split.
  - intros (X & HX & Hc). apply list_elem_of_fmap in HX as (s & -> & Hs).
    exists s. unfold Sentence.known_safes in Hc; simpl in Hc.
    case_bool_decide; [done | set_solver].
  - intros (s & Hs & Hn & Hc). exists (Sentence.known_safes s).1. split.
    + apply list_elem_of_fmap. by exists s.
    + unfold Sentence.known_safes; simpl. by rewrite bool_decide_eq_true_2.
Qed.

(** The marking loops: what they do to each field. *)
Lemma foldl_mark_safe st (l : list Cell) :
  foldl mark_safe st l =
  mk (height st) (width st) (moves_made st) (mines st) (safes st ++ l)
     (foldl (λ k c, Sentence.mark_safe c <$> k) (knowledge st) l).
Proof.
  revert st. induction l as [| c l IH]; intros st; simpl.
  - rewrite app_nil_r. by destruct st.
  - rewrite IH. simpl. by rewrite <- app_assoc.
Qed.

Lemma foldl_mark_mine st (l : list Cell) :
  foldl mark_mine st l =
  mk (height st) (width st) (moves_made st) (mines st ++ l) (safes st)
     (foldl (λ k c, Sentence.mark_mine c <$> k) (knowledge st) l).
Proof.
  revert st. induction l as [| c l IH]; intros st; simpl.
  - rewrite app_nil_r. by destruct st.
  - rewrite IH. simpl. by rewrite <- app_assoc.
Qed.

Lemma keeps_empty_trans s1 s2 s3 :
  keeps_empty s1 s2 → keeps_empty s2 s3 → keeps_empty s1 s3.
Proof.
  unfold keeps_empty. intros H12 H23 H1.
  specialize (H12 H1). subst s2. by apply H23.
Qed.

Lemma keeps_empty_fold (f : Cell → Sentence.t → Sentence.t) (l : list Cell) k :
  (∀ c s, keeps_empty s (f c s)) →
  Forall2 keeps_empty k (foldl (λ k c, f c <$> k) k l).
Proof.
  intros Hf. revert k. induction l as [| c l IH]; intros k; simpl.
  - apply Forall2_same_length_lookup_2; [done |].
    intros i s s' H1 H2. by simplify_eq.
  - eapply Forall2_trans; [apply keeps_empty_trans | | apply IH].
    apply Forall2_fmap_r, Forall_Forall2_diag, Forall_forall.
    intros s _. apply Hf.
Qed.

Lemma keeps_empty_marked set_iter st :
  Forall2 keeps_empty (knowledge st) (knowledge (marked set_iter st)).
Proof.
  unfold marked. rewrite foldl_mark_mine, foldl_mark_safe. simpl.
  eapply Forall2_trans; [apply keeps_empty_trans | |].
  - apply keeps_empty_fold. intros c s Hs.
    apply (mark_safe_absent s c). rewrite Hs. set_solver.
  - apply keeps_empty_fold. intros c s Hs.
    apply (mark_mine_absent s c). rewrite Hs. set_solver.
Qed.

Lemma empty_sentences_kept k k' :
  Forall2 keeps_empty k k' → empty_sentences k ⊆+ k'.
Proof.
  unfold empty_sentences. induction 1 as [| s s' k k' Hs _ IH]; [done |].
  rewrite filter_cons. case_decide.
  - rewrite (Hs H). by apply submseteq_skip.
  - by apply submseteq_cons.
Qed.

End Pass.

Section Removal.

Import MinesweeperAI.
Implicit Types (s x : Sentence.t) (k l : list Sentence.t).

Lemma contains_elem_of l x : contains l x = true ↔ x ∈ l.
Proof.
  unfold contains. rewrite existsb_exists. split.
  - intros (y & Hy & ->%eqb_eq). by apply list_elem_of_In.
  - intros Hx. exists x. split; [by apply list_elem_of_In | apply eqb_refl].
Qed.

Lemma remove_first_perm l x : x ∈ l → l ≡ₚ x :: remove_first x l.
Proof.
  induction l as [| y l IH]; [by intros ?%not_elem_of_nil |]. simpl.
  destruct (Sentence.eqb y x) eqn:E.
  - apply eqb_eq in E as ->. done.
  - apply eqb_neq in E. intros [? | Hx]%elem_of_cons; [congruence |].
    rewrite (IH Hx) at 1. apply Permutation_swap.
Qed.

Lemma remove_each_cons l x k :
  x ∈ l → remove_each l (x :: k) = remove_each (remove_first x l) k.
Proof.
  intros Hx. unfold remove_each; simpl. unfold list_remove at 2.
  by rewrite (proj2 (contains_elem_of l x) Hx).
Qed.

(** Line 215 never raises when every sentence to remove is in the list,
    as many times as it is to be removed. *)
Lemma remove_each_returns k l :
  k ⊆+ l → ∃ l', remove_each l k = Ret l' ∧ l ≡ₚ k ++ l'.
Proof.
  revert l. induction k as [| x k IH]; intros l Hsub.
  - by exists l.
  - assert (Hx : x ∈ l) by (eapply elem_of_submseteq; [left | done]).
    rewrite remove_each_cons by done.
    destruct (IH (remove_first x l)) as (l' & Hl' & Hp).
    { apply (submseteq_app_inv_l _ _ [x]). simpl.
      by rewrite <- (remove_first_perm l x Hx). }
    exists l'. split; [done |]. simpl. rewrite <- Hp.
    by apply remove_first_perm.
Qed.

Lemma pair_step_unrelated a acc b :
  unrelated a b = true → pair_step a acc b = acc.
Proof.
  unfold unrelated, pair_step.
  rewrite andb_true_iff, !negb_true_iff, !bool_decide_eq_false.
  intros [Hba Hab].
  destruct (Sentence.eqb a b) eqn:E.
  { apply eqb_eq in E as ->. by destruct Hba. }
  rewrite !bool_decide_eq_false_2; [done | |].
  - intros H. apply Hab. set_solver.
  - intros H. apply Hba. set_solver.
Qed.

Lemma subset_pairs_unrelated k acc :
  pairwise_unrelated k = true → subset_pairs k acc = acc.
Proof.
  revert acc. induction k as [| a k IH]; intros acc; [done |]. simpl.
  rewrite andb_true_iff, forallb_forall. intros [Ha Hk].
  rewrite IH by done. clear IH Hk.
  revert acc. induction k as [| b k IH]; intros acc; [done |]. simpl.
  rewrite pair_step_unrelated by (apply Ha; by left).
  apply IH. intros x Hx. apply Ha. by right.
Qed.

Lemma resolve_subsets_unrelated k :
  pairwise_unrelated k = true → resolve_subsets k = k.
Proof.
  intros H. unfold resolve_subsets. by rewrite subset_pairs_unrelated.
Qed.

Lemma unresolved_nothing_known k :
  forallb unresolved k = true →
  safe_cells k = ∅ ∧ mine_cells k = ∅ ∧ empty_sentences k = [].
Proof.
  rewrite forallb_forall. intros H.
  assert (H' : ∀ s, s ∈ k →
            Sentence.cells s ≠ ∅ ∧ Sentence.count s ≠ 0
            ∧ Z.of_nat (size (Sentence.cells s)) ≠ Sentence.count s).
  { intros s Hs%list_elem_of_In. specialize (H s Hs). unfold unresolved in H.
    rewrite !andb_true_iff, !negb_true_iff, !bool_decide_eq_false in H.
    tauto. }
  clear H. split_and!.
  - apply set_eq. intros c. rewrite elem_of_safe_cells.
    split; [| by intros ?%not_elem_of_empty].
    intros (s & Hs & H0 & _). by destruct (H' s Hs) as (_ & ? & _).
  - apply set_eq. intros c. rewrite elem_of_mine_cells.
    split; [| by intros ?%not_elem_of_empty].
    intros (s & Hs & H0 & _). by destruct (H' s Hs) as (_ & _ & ?).
  - unfold empty_sentences. induction k as [| s k IH]; [done |].
    rewrite filter_cons. destruct (H' s) as (? & _); [by left |].
    rewrite decide_False by done. apply IH. intros s' Hs'. apply H'. by right.
Qed.

End Removal.

Section Simplify.

Import MinesweeperAI.
Variable set_iter : gset Cell → list Cell.
Implicit Types (st : MinesweeperAI.t) (c : Cell).

Lemma simplify_unfold st :
  simplify set_iter st =
  (k ← remove_each (knowledge (marked set_iter st))
                   (empty_sentences (knowledge st));
   Ret (set_knowledge (marked set_iter st) (resolve_subsets k))).
Proof.
  unfold simplify. rewrite collect_spec. unfold marked, resolve_subsets.
  destruct (remove_each _ _) as [k |]; simpl; [| done].
  by destruct (subset_pairs k ([], [])).
Qed.

(** The pass always returns: the sentences the loop of line 214 removes
    are in [knowledge]. *)
Lemma simplify_returns st :
  ∃ k, simplify set_iter st = Ret (set_knowledge (marked set_iter st) k).
Proof.
  rewrite simplify_unfold.
  destruct (remove_each_returns (empty_sentences (knowledge st))
              (knowledge (marked set_iter st))) as (l' & -> & _).
  { apply empty_sentences_kept, keeps_empty_marked. }
  simpl. eauto.
Qed.

Lemma marked_fields st :
  height (marked set_iter st) = height st
  ∧ width (marked set_iter st) = width st
  ∧ moves_made (marked set_iter st) = moves_made st
  ∧ mines (marked set_iter st)
    = mines st ++ set_iter (mine_cells (knowledge st))
  ∧ safes (marked set_iter st)
    = safes st ++ set_iter (safe_cells (knowledge st)).
Proof. unfold marked. by rewrite foldl_mark_mine, foldl_mark_safe. Qed.

Hypothesis set_iter_perm : ∀ X, set_iter X ≡ₚ elements X.

Lemma set_iter_empty : set_iter ∅ = [].
Proof. apply Permutation_nil_r. by rewrite set_iter_perm, elements_empty. Qed.

Lemma elem_of_set_iter c X : c ∈ set_iter X ↔ c ∈ X.
Proof. by rewrite set_iter_perm, elem_of_elements. Qed.

(** A settled agent is a fixed point of the pass. *)
Lemma simplify_settled st :
  settled st = true → simplify set_iter st = Ret st.
Proof.
  unfold settled. rewrite andb_true_iff. intros [Hu Hp].
  destruct (unresolved_nothing_known _ Hu) as (Hs & Hm & He).
  rewrite simplify_unfold. unfold marked. rewrite Hs, Hm, He, set_iter_empty.
  simpl. rewrite resolve_subsets_unrelated by done.
  by rewrite set_knowledge_same.
Qed.

End Simplify.

(** ** A sentence the pass leaves alone *)








Section KeptSentence.

Import MinesweeperAI.
Variable set_iter : gset Cell → list Cell.
Hypothesis set_iter_perm : ∀ X, set_iter X ≡ₚ elements X.
Variable S : Sentence.t.
Hypothesis S_unresolved : unresolved S = true.
Implicit Types (st : MinesweeperAI.t) (k others : list Sentence.t).





End KeptSentence.

(** ** add_knowledge (lines 178-235) *)

Section Closure.

Import MinesweeperAI.
Variable set_iter : gset Cell → list Cell.
Hypothesis set_iter_perm : ∀ X, set_iter X ≡ₚ elements X.
Implicit Types (st : MinesweeperAI.t) (c : Cell).

(** An agent that knows no mine has no known mine next to any cell. *)
Lemma no_known_mine_neighbours st c :
  mines st = [] → known_mine_neighbours st c = 0.
Proof.
  intros Hm. unfold known_mine_neighbours. rewrite Hm.
  induction (neighbours st c) as [| ij l IH]; [done |].
  rewrite filter_cons, decide_False; [done | apply not_elem_of_nil].
Qed.

(** [add_knowledge] never raises, and what it does to the fields other
    than [knowledge] is the two marking loops. *)
Lemma add_knowledge_returns st c n :
  ∃ st', add_knowledge set_iter st c n = Ret st'
         ∧ height st' = height st ∧ width st' = width st
         ∧ moves_made st' = moves_made st ∪ {[c]}
         ∧ mines st'
           = mines st
             ++ set_iter (mine_cells (knowledge (record_move st c n)))
         ∧ safes st'
           = safes st ++ [c]
             ++ set_iter (safe_cells (knowledge (record_move st c n))).
Proof.
  unfold add_knowledge.
  destruct (simplify_returns set_iter (record_move st c n)) as [k ->].
  eexists. split; [done |].
  destruct (marked_fields set_iter (record_move st c n))
    as (Hh & Hw & Hv & Hm & Hs).
  cbn [height width moves_made mines safes set_knowledge].
  rewrite Hh, Hw, Hv, Hm, Hs. split_and!; try reflexivity.
  change (safes (record_move st c n)) with (safes st ++ [c]).
  by rewrite <- app_assoc.
Qed.

(** C1, as the code has it. [add_knowledge] always returns, after one pass
    of simplification over the agent with the new sentence appended. The
    agent it leaves is a fixed point of a further pass whenever it is
    settled: no sentence of [knowledge] is without cells, has [count == 0]
    or [count == len(cells)], and no two sentences are such that the cells
    of one include the cells of the other. *)
Theorem add_knowledge_one_pass st c n :
  ∃ st', add_knowledge set_iter st c n = Ret st'
         ∧ simplify set_iter (record_move st c n) = Ret st'
         ∧ (settled st' = true → simplify set_iter st' = Ret st').
Proof.
  destruct (add_knowledge_returns st c n) as (st' & H & _).
  exists st'. split_and!; [done | done |].
  by apply simplify_settled.
Qed.


End Closure.

(** ** Concrete runs

    The runs below iterate sets in the order of [elements]; every set they
    iterate has at most one member, so the order plays no part. *)

Lemma elements_lists_members (X : gset Cell) : elements X ≡ₚ elements X.
Proof. reflexivity. Defined.

(** A fresh agent on a 2 x 2 board told [(0,0)] has one mine next to it:
    the agent is settled, and a further pass changes nothing. *)
Lemma add_knowledge_one_pass_witness :
  ∃ st',
    MinesweeperAI.add_knowledge elements (MinesweeperAI.init 2 2) (0, 0) 1
    = Ret st'
    ∧ settled st' = true
    ∧ MinesweeperAI.simplify elements st' = Ret st'.
Proof.
  destruct (add_knowledge_one_pass elements elements_lists_members
              (MinesweeperAI.init 2 2) (0, 0) 1) as (st' & H1 & _ & H3).
  exists st'.
  assert (Hs : settled st' = true).
  { vm_compute in H1. injection H1 as <-. evaluate. }
  auto.
Defined.

Example settled_after_first_reveal :
  MinesweeperAI.add_knowledge elements (MinesweeperAI.init 2 2) (0, 0) 1
  = Ret (MinesweeperAI.mk 2 2 {[(0, 0)]} [] [(0, 0)]
           [Sentence.mk {[(0, 1); (1, 0); (1, 1)]} 1]).
Proof. evaluate. Qed.

(** C1 as stated fails. On a 1 x 4 board with its mine at [(0,2)], the
    agent is told [(0,1)] has one mine next to it, then [(0,3)] has one.
    The second call marks [(0,2)] a mine and leaves the sentence
    [{(0,0)} = 0] in [knowledge]; a further pass adds [(0,0)] to [safes]. *)
Lemma add_knowledge_not_fixed_point :
  ∃ st1 st2 st3,
    MinesweeperAI.add_knowledge elements (MinesweeperAI.init 1 4) (0, 1) 1
    = Ret st1
    ∧ MinesweeperAI.add_knowledge elements st1 (0, 3) 1 = Ret st2
    ∧ MinesweeperAI.simplify elements st2 = Ret st3
    ∧ MinesweeperAI.knowledge st2
      = [Sentence.mk {[(0, 0)]} 0; Sentence.mk ∅ 0]
    ∧ MinesweeperAI.safes st2 = [(0, 1); (0, 3)]
    ∧ MinesweeperAI.safes st3 = [(0, 1); (0, 3); (0, 0)]
    ∧ MinesweeperAI.knowledge st3 = [Sentence.mk ∅ 0]
    ∧ st3 ≠ st2.
Proof.
  do 3 eexists. split_and!; [evaluate .. |]. vm_compute. by intros [=].
Qed.


Example after_corner_reveal_reached :
  MinesweeperAI.add_knowledge elements (MinesweeperAI.init 3 3) (2, 2) 0
  = Ret after_corner_reveal.
Proof. evaluate. Qed.

(** The same run from an agent without sentences: a 2 x 2 board on which
    [(1,1)] is known safe. *)
Example fresh_agent_deduces_mine :
  (st1 ← MinesweeperAI.add_knowledge elements
           (MinesweeperAI.mk 2 2 ∅ [] [(1, 1)] []) (0, 0) 1;
   st2 ← MinesweeperAI.add_knowledge elements st1 (0, 1) 0;
   Ret (MinesweeperAI.mines st2))
  = Ret [(1, 0)].
Proof. evaluate. Qed.


(** The same failure from a fresh agent on a 2 x 3 board, by calls of
    [add_knowledge] alone: after [(1,1)] and [(1,2)] are revealed with count
    1, the neighbours of [(0,0)] not in [safes] are [(0,1)] and [(1,0)], and
    the two calls of the scenario leave [(0,2)] in [mines], not [(1,0)]. *)
Example scenario_mine_not_deduced_reachable :
  (st1 ← MinesweeperAI.add_knowledge elements (MinesweeperAI.init 2 3) (1, 1) 1;
   st2 ← MinesweeperAI.add_knowledge elements st1 (1, 2) 1;
   st3 ← MinesweeperAI.add_knowledge elements st2 (0, 0) 1;
   st4 ← MinesweeperAI.add_knowledge elements st3 (0, 1) 0;
   Ret (unknown_neighbours st2 (0, 0), MinesweeperAI.mines st4))
  = Ret ({[(0, 1); (1, 0)]}, [(0, 2)]).
Proof. evaluate. Qed.

(** *** The known mine that stays in the new sentence *)

Example after_first_reveal_reached :
  Minesweeper.nearby_mines board_1x3 (0, 0) = Ret 1
  ∧ MinesweeperAI.add_knowledge elements (MinesweeperAI.init 1 3) (0, 0) 1
    = Ret after_first_reveal
  ∧ (MinesweeperAI.make_random_move (λ _, (0, 2)) after_first_reveal).1
    = Ret (Some (0, 2)).
Proof. split_and!; evaluate. Qed.

(** C2 at the failing input. [(0,1)] is in [mines] and next to [(0,2)];
    the sentence built for [add_knowledge((0,2), 1)] has [(0,1)] among its
    cells, with the count lowered to 0 on its account. *)
Theorem known_mine_kept_in_new_sentence :
  (0, 1) ∈ MinesweeperAI.mines after_first_reveal
  ∧ MinesweeperAI.knowledge
      (MinesweeperAI.record_move after_first_reveal (0, 2) 1)
    = [Sentence.mk ∅ 0; Sentence.mk {[(0, 1)]} 0]
  ∧ (0, 1) ∈ Sentence.cells
               (MinesweeperAI.new_sentence
                  (MinesweeperAI.mark_safe after_first_reveal (0, 2))
                  (0, 2) 1).
Proof. split_and!; [decide_by_evaluation | evaluate | decide_by_evaluation]. Qed.

(** C4 at the failing input. The counts are those of [board_1x3], whose
    only mine is [(0,1)]; after the two calls [(0,1)] is in [safes] and in
    [mines]. *)
Theorem safes_and_mines_overlap :
  Minesweeper.nearby_mines board_1x3 (0, 0) = Ret 1
  ∧ Minesweeper.nearby_mines board_1x3 (0, 2) = Ret 1
  ∧ ∃ st1 st2,
      MinesweeperAI.add_knowledge elements (MinesweeperAI.init 1 3) (0, 0) 1
      = Ret st1
      ∧ MinesweeperAI.add_knowledge elements st1 (0, 2) 1 = Ret st2
      ∧ MinesweeperAI.mines st2 = [(0, 1)]
      ∧ MinesweeperAI.safes st2 = [(0, 0); (0, 2); (0, 1)]
      ∧ (0, 1) ∈ MinesweeperAI.safes st2
      ∧ (0, 1) ∈ MinesweeperAI.mines st2.
Proof.
  split_and!; [evaluate | evaluate |].
  do 2 eexists.
  split_and!; [evaluate .. | decide_by_evaluation | decide_by_evaluation].
Qed.

(** * Further properties of the code *)

(** ** Sentences read against a placement of mines *)

Section SentenceSoundness.

Variable M : gset Cell.
Implicit Types (s a b : Sentence.t) (c : Cell).

Lemma holds_invariant s : holds M s → invariant s.
Proof.
  unfold holds, invariant. intros <-. split; [lia |].
  apply inj_le, subseteq_size. set_solver.
Qed.

Lemma holds_mark_safe s c : c ∉ M → holds M s → holds M (Sentence.mark_safe c s).
Proof.
  unfold holds. intros Hc Hs. rewrite mark_safe_cells, mark_safe_count, <- Hs.
  do 2 f_equal. set_solver.
Qed.

Lemma holds_mark_mine s c : c ∈ M → holds M s → holds M (Sentence.mark_mine c s).
Proof.
  unfold holds. intros Hc Hs.
  destruct (decide (c ∈ Sentence.cells s)) as [Hin | Hout];
    [| by rewrite mark_mine_absent].
  unfold Sentence.mark_mine. rewrite bool_decide_eq_true_2 by done. simpl.
  rewrite <- Hs.
  replace ((Sentence.cells s ∖ {[c]}) ∩ M)
    with ((Sentence.cells s ∩ M) ∖ {[c]}) by set_solver.
  apply size_remove_cell. set_solver.
Qed.

Lemma holds_known_safes s c :
  holds M s → c ∈ (Sentence.known_safes s).1 → c ∉ M.
Proof.
  unfold holds, Sentence.known_safes; simpl. intros Hs.
  case_bool_decide as H0; [| set_solver].
  rewrite H0 in Hs. intros Hc HM.
  assert (size (Sentence.cells s ∩ M) = 0%nat) as He%size_empty_inv by lia.
  set_solver.
Qed.

Lemma holds_known_mines s c :
  holds M s → c ∈ (Sentence.known_mines s).1 → c ∈ M.
Proof.
  unfold holds, Sentence.known_mines; simpl. intros Hs.
  case_bool_decide as Hn; [| set_solver].
  intros Hc.
  assert (Sentence.cells s ∩ M = Sentence.cells s) as He.
  { apply set_subseteq_size_eq; [set_solver | lia]. }
  set_solver.
Qed.

Lemma holds_difference a b :
  Sentence.cells b ⊆ Sentence.cells a →
  holds M a → holds M b →
  holds M (Sentence.mk (Sentence.cells a ∖ Sentence.cells b)
                       (Sentence.count a - Sentence.count b)).
Proof.
  unfold holds; simpl. intros Hsub <- <-.
  replace ((Sentence.cells a ∖ Sentence.cells b) ∩ M)
    with ((Sentence.cells a ∩ M) ∖ (Sentence.cells b ∩ M)) by set_solver.
  rewrite size_difference by set_solver.
  assert (size (Sentence.cells b ∩ M) ≤ size (Sentence.cells a ∩ M))%nat
    by (apply subseteq_size; set_solver).
  lia.
Qed.

End SentenceSoundness.

(** X1. A sentence that holds of a placement of mines draws only true
    conclusions: every cell [known_safes] returns is free of a mine, and
    every cell [known_mines] returns has one. *)
Theorem known_cells_sound (M : gset Cell) (s : Sentence.t) :
  holds M s →
  (∀ c, c ∈ (Sentence.known_safes s).1 → c ∉ M)
  ∧ (∀ c, c ∈ (Sentence.known_mines s).1 → c ∈ M).
Proof.
  intros Hs. split; intros c.
  - by apply holds_known_safes.
  - by apply holds_known_mines.
Qed.

Lemma known_cells_sound_witness :
  (∀ c, c ∈ (Sentence.known_safes (Sentence.mk {[(0, 1); (1, 0)]} 0)).1
        → c ∉ ({[(2, 2)]} : gset Cell))
  ∧ (∀ c, c ∈ (Sentence.known_mines (Sentence.mk {[(0, 1); (1, 0)]} 0)).1
          → c ∈ ({[(2, 2)]} : gset Cell)).
Proof.
  apply (known_cells_sound {[(2, 2)]} (Sentence.mk {[(0, 1); (1, 0)]} 0)).
  vm_compute. reflexivity.
Defined.

(** X2. Marking a cell for what it is keeps a sentence true: if the sentence
    holds of a placement, it still holds after [mark_mine(c)] for a mine [c]
    and after [mark_safe(c)] for a cell [c] without a mine, and in both cases
    [0 ≤ count ≤ |cells|] afterwards. *)
Theorem truthful_marks_keep_sentence (M : gset Cell) (s : Sentence.t) (c : Cell) :
  holds M s →
  (c ∈ M → holds M (Sentence.mark_mine c s)
           ∧ invariant (Sentence.mark_mine c s))
  ∧ (c ∉ M → holds M (Sentence.mark_safe c s)
             ∧ invariant (Sentence.mark_safe c s)).
Proof.
  intros Hs. split; intros Hc.
  - assert (holds M (Sentence.mark_mine c s)) by by apply holds_mark_mine.
    split; [done | by eapply holds_invariant].
  - assert (holds M (Sentence.mark_safe c s)) by by apply holds_mark_safe.
    split; [done | by eapply holds_invariant].
Qed.

Lemma truthful_marks_keep_sentence_witness :
  ((0, 1) ∈ ({[(0, 1)]} : gset Cell)
   → holds {[(0, 1)]} (Sentence.mark_mine (0, 1) (Sentence.mk {[(0, 1); (1, 0)]} 1))
     ∧ invariant (Sentence.mark_mine (0, 1) (Sentence.mk {[(0, 1); (1, 0)]} 1)))
  ∧ ((0, 1) ∉ ({[(0, 1)]} : gset Cell)
     → holds {[(0, 1)]} (Sentence.mark_safe (0, 1) (Sentence.mk {[(0, 1); (1, 0)]} 1))
       ∧ invariant (Sentence.mark_safe (0, 1) (Sentence.mk {[(0, 1); (1, 0)]} 1))).
Proof.
  apply (truthful_marks_keep_sentence {[(0, 1)]}
           (Sentence.mk {[(0, 1); (1, 0)]} 1) (0, 1)).
  vm_compute. reflexivity.
Defined.

(** ** The pass draws only true conclusions *)

Section PassSoundness.

Import MinesweeperAI.
Variable M : gset Cell.
Implicit Types (st : MinesweeperAI.t) (c : Cell) (k : list Sentence.t).

Lemma safe_cells_sound k c :
  Forall (holds M) k → c ∈ safe_cells k → c ∉ M.
Proof.
  rewrite Forall_forall. unfold safe_cells. intros Hk.
  rewrite elem_of_union_list. intros (X & HX & Hc).
  apply list_elem_of_fmap in HX as (s & -> & Hs).
  eapply holds_known_safes; [by apply Hk | done].
Qed.

Lemma mine_cells_sound k c :
  Forall (holds M) k → c ∈ mine_cells k → c ∈ M.
Proof.
  rewrite Forall_forall. unfold mine_cells. intros Hk.
  rewrite elem_of_union_list. intros (X & HX & Hc).
  apply list_elem_of_fmap in HX as (s & -> & Hs).
  eapply holds_known_mines; [by apply Hk | done].
Qed.

Lemma holds_fold_marks (f : Cell → Sentence.t → Sentence.t) (P : Cell → Prop)
    (l : list Cell) k :
  (∀ c s, P c → holds M s → holds M (f c s)) →
  Forall P l → Forall (holds M) k →
  Forall (holds M) (foldl (λ k c, f c <$> k) k l).
Proof.
  intros Hf Hl. revert k. induction Hl as [| c l Hc _ IH]; intros k Hk; [done |].
  simpl. apply IH. apply Forall_fmap. eapply Forall_impl; [done |].
  intros s. by apply Hf.
Qed.

Lemma holds_remove_first x k :
  Forall (holds M) k → Forall (holds M) (remove_first x k).
Proof.
  induction 1 as [| s k Hs Hk IH]; simpl; [done |].
  destruct (Sentence.eqb s x); [done | by constructor].
Qed.

Lemma holds_pair_step a b acc :
  holds M a → holds M b →
  Forall (holds M) acc.2 → Forall (holds M) (pair_step a acc b).2.
Proof.
  intros Ha Hb Hacc. unfold pair_step.
  destruct (Sentence.eqb a b); [done |].
  case_bool_decide as H1.
  { simpl. apply Forall_app. split; [done |]. constructor; [| done].
    apply holds_difference; [set_solver | done | done]. }
  case_bool_decide as H2; [| done].
  simpl. apply Forall_app. split; [done |]. constructor; [| done].
  apply holds_difference; [set_solver | done | done].
Qed.

Lemma holds_subset_pairs k acc :
  Forall (holds M) k →
  Forall (holds M) acc.2 → Forall (holds M) (subset_pairs k acc).2.
Proof.
  intros Hk. revert acc. induction Hk as [| a k Ha Hk IH]; intros acc Hacc;
    [done |].
  simpl. apply IH. clear IH. revert acc Hacc.
  induction Hk as [| b k Hb _ IH]; intros acc Hacc; [done |].
  simpl. apply IH. by apply holds_pair_step.
Qed.

Lemma holds_resolve_subsets k :
  Forall (holds M) k → Forall (holds M) (resolve_subsets k).
Proof.
  intros Hk. unfold resolve_subsets.
  pose proof (holds_subset_pairs k ([], []) Hk (Forall_nil_2 _)) as Hadd.
  destruct (subset_pairs k ([], [])) as [removed added]. simpl in Hadd.
  assert (Hk' : Forall (holds M)
            (foldl (λ k s, if contains k s then remove_first s k else k)
                   k removed)).
  { clear Hadd. revert k Hk. induction removed as [| x l IH]; intros k Hk;
      [done |].
    simpl. apply IH. destruct (contains k x); [| done].
    by apply holds_remove_first. }
  revert Hk'. generalize (foldl (λ k s, if contains k s then remove_first s k
                                        else k) k removed).
  induction Hadd as [| x l Hx _ IH]; intros k' Hk'; [done |].
  simpl. apply IH. destruct (contains k' x); simpl; [done |].
  apply Forall_app. split; [done | by constructor].
Qed.

Variable set_iter : gset Cell → list Cell.
Hypothesis set_iter_perm : ∀ X, set_iter X ≡ₚ elements X.

Lemma sound_marked st : sound M st → sound M (marked set_iter st).
Proof.
  intros (Hs & Hm & Hk).
  destruct (marked_fields set_iter st) as (_ & _ & _ & Hmi & Hsa).
  split_and!.
  - rewrite Hsa. apply Forall_app. split; [done |].
    apply Forall_forall. intros c Hc%elem_of_set_iter; [| done].
    by eapply safe_cells_sound.
  - rewrite Hmi. apply Forall_app. split; [done |].
    apply Forall_forall. intros c Hc%elem_of_set_iter; [| done].
    by eapply mine_cells_sound.
  - unfold marked. rewrite foldl_mark_mine, foldl_mark_safe. simpl.
    apply (holds_fold_marks Sentence.mark_mine (λ c, c ∈ M)).
    + intros c s. apply holds_mark_mine.
    + apply Forall_forall. intros c Hc%elem_of_set_iter; [| done].
      by eapply mine_cells_sound.
    + apply (holds_fold_marks Sentence.mark_safe (λ c, c ∉ M)); [| | done].
      * intros c s. apply holds_mark_safe.
      * apply Forall_forall. intros c Hc%elem_of_set_iter; [| done].
        by eapply safe_cells_sound.
Qed.

Lemma simplify_sound st :
  sound M st → ∃ st', simplify set_iter st = Ret st' ∧ sound M st'.
Proof.
  intros Hst. pose proof (sound_marked st Hst) as (Hs & Hm & Hk).
  rewrite simplify_unfold.
  destruct (remove_each_returns (empty_sentences (knowledge st))
              (knowledge (marked set_iter st))) as (l' & -> & Hp).
  { apply empty_sentences_kept, keeps_empty_marked. }
  simpl. eexists. split; [done |]. split_and!; [done | done |]. simpl.
  apply holds_resolve_subsets.
  rewrite Hp in Hk. by apply Forall_app in Hk as [_ ?].
Qed.

(** The sentence [add_knowledge] appends, read against the placement. *)
Lemma unknown_neighbours_mark_safe st c :
  unknown_neighbours (mark_safe st c) c = unknown_neighbours st c.
Proof.
  unfold unknown_neighbours. apply set_eq. intros x.
  rewrite !elem_of_list_to_set, !list_elem_of_filter. simpl.
  change (neighbours _ c) with (neighbours st c).
  rewrite elem_of_app, list_elem_of_singleton.
  pose proof (cell_not_neighbour st c). split; [tauto |].
  intros [? ?]. split; [| done]. intros [? | ->]; tauto.
Qed.

Lemma new_sentence_spec st c n :
  new_sentence (mark_safe st c) c n
  = Sentence.mk (unknown_neighbours st c) (n - known_mine_neighbours st c).
Proof.
  unfold new_sentence. rewrite scan_neighbours_spec.
  unfold Sentence.init. f_equal. apply unknown_neighbours_mark_safe.
Qed.

Lemma new_sentence_holds st c :
  Forall (λ x, x ∉ M) (safes st) →
  holds M (Sentence.mk (unknown_neighbours st c)
                       (Z.of_nat (size (mined_neighbours M st c))
                        - known_mine_neighbours st c))
  ↔ known_mine_neighbours st c = 0.
Proof.
  intros Hs. unfold holds; simpl.
  replace (unknown_neighbours st c ∩ M) with (mined_neighbours M st c).
  - lia.
  - unfold mined_neighbours, unknown_neighbours. apply set_eq. intros x.
    rewrite !elem_of_intersection, !elem_of_list_to_set, list_elem_of_filter.
    rewrite Forall_forall in Hs. specialize (Hs x). tauto.
Qed.

Lemma record_move_sound st c :
  sound M st → c ∉ M → known_mine_neighbours st c = 0 →
  sound M (record_move st c (Z.of_nat (size (mined_neighbours M st c)))).
Proof.
  intros (Hs & Hm & Hk) Hc H0. rewrite record_move_spec.
  split_and!; simpl.
  - apply Forall_app. split; [done | by constructor].
  - done.
  - apply Forall_app. split.
    + apply Forall_fmap. eapply Forall_impl; [done |].
      intros s. by apply holds_mark_safe.
    + constructor; [| done]. by apply new_sentence_holds.
Qed.

End PassSoundness.

(** X3. Subset inference is sound: when every sentence of [knowledge] holds
    of a placement of mines, so does every sentence the loop of lines 219-228
    derives, and so does every sentence of [knowledge] after lines 230-235. *)
Theorem subset_inference_sound (M : gset Cell) (k : list Sentence.t) :
  Forall (holds M) k →
  Forall (holds M) (MinesweeperAI.subset_pairs k ([], [])).2
  ∧ Forall (holds M) (resolve_subsets k).
Proof.
  intros Hk. split.
  - by apply holds_subset_pairs.
  - by apply holds_resolve_subsets.
Qed.

Lemma subset_inference_sound_witness :
  Forall (holds {[(1, 0)]})
    (MinesweeperAI.subset_pairs
       [Sentence.mk {[(0, 1); (1, 0)]} 1; Sentence.mk {[(0, 1)]} 0]
       ([], [])).2
  ∧ Forall (holds {[(1, 0)]})
      (resolve_subsets
         [Sentence.mk {[(0, 1); (1, 0)]} 1; Sentence.mk {[(0, 1)]} 0]).
Proof.
  apply (subset_inference_sound {[(1, 0)]}
           [Sentence.mk {[(0, 1); (1, 0)]} 1; Sentence.mk {[(0, 1)]} 0]).
  repeat constructor.
Defined.

(** X4. [add_knowledge] keeps an agent right about the board as long as
    the revealed cell has no neighbour in [mines]: if no cell of [safes] is a
    mine, every cell of [mines] is one, every sentence holds, the revealed
    cell is no mine and [count] is the number of mines among its neighbours,
    then the call returns an agent of which all this is true again, and in
    which no cell is both in [safes] and in [mines]. *)
Theorem add_knowledge_sound (M : gset Cell) (set_iter : gset Cell → list Cell)
    (st : MinesweeperAI.t) (c : Cell) :
  (∀ X, set_iter X ≡ₚ elements X) →
  sound M st →
  c ∉ M →
  known_mine_neighbours st c = 0 →
  ∃ st',
    MinesweeperAI.add_knowledge set_iter st c
      (Z.of_nat (size (mined_neighbours M st c))) = Ret st'
    ∧ sound M st'
    ∧ ∀ x, x ∈ MinesweeperAI.safes st' → x ∉ MinesweeperAI.mines st'.
Proof.
  intros Hperm Hst Hc H0. unfold MinesweeperAI.add_knowledge.
  destruct (simplify_sound M set_iter Hperm _ (record_move_sound M st c Hst Hc H0))
    as (st' & Hr & Hst').
  exists st'. split_and!; [done | done |].
  destruct Hst' as (Hs & Hm & _). rewrite Forall_forall in Hs, Hm.
  intros x Hx Hx'. by apply (Hs x Hx), Hm.
Qed.

Lemma add_knowledge_sound_witness :
  ∃ st',
    MinesweeperAI.add_knowledge elements (MinesweeperAI.init 1 3) (0, 0)
      (Z.of_nat (size (mined_neighbours {[(0, 1)]} (MinesweeperAI.init 1 3)
                                        (0, 0)))) = Ret st'
    ∧ sound {[(0, 1)]} st'
    ∧ ∀ x, x ∈ MinesweeperAI.safes st' → x ∉ MinesweeperAI.mines st'.
Proof.
  apply (add_knowledge_sound {[(0, 1)]} elements (MinesweeperAI.init 1 3)
           (0, 0) elements_lists_members);
    [decide_by_evaluation | decide_by_evaluation | evaluate].
Defined.

(** X5. Where that condition fails the appended sentence is false. For an
    agent none of whose [safes] is a mine, the sentence built for a revealed
    cell from the true count holds of the placement exactly when no
    neighbour of the cell is in [mines]. *)
Theorem new_sentence_true_iff (M : gset Cell) (st : MinesweeperAI.t) (c : Cell) :
  Forall (λ x, x ∉ M) (MinesweeperAI.safes st) →
  holds M (MinesweeperAI.new_sentence (MinesweeperAI.mark_safe st c) c
             (Z.of_nat (size (mined_neighbours M st c))))
  ↔ known_mine_neighbours st c = 0.
Proof.
  intros Hs. rewrite new_sentence_spec. by apply new_sentence_holds.
Qed.

Lemma new_sentence_true_iff_witness :
  holds {[(0, 1)]}
    (MinesweeperAI.new_sentence
       (MinesweeperAI.mark_safe after_first_reveal (0, 2)) (0, 2)
       (Z.of_nat (size (mined_neighbours {[(0, 1)]} after_first_reveal
                                         (0, 2)))))
  ↔ known_mine_neighbours after_first_reveal (0, 2) = 0.
Proof.
  apply (new_sentence_true_iff {[(0, 1)]} after_first_reveal (0, 2)).
  decide_by_evaluation.
Defined.

(** ** The board's count of nearby mines (lines 50-77) *)

Lemma window_length (c : Cell) : length (window c) = 9%nat.
Proof. reflexivity. Qed.

Lemma elem_of_window_self (c : Cell) : c ∈ window c.
Proof. destruct c as [i j]. unfold window. simpl. set_solver. Qed.

Lemma NoDup_window (c : Cell) : NoDup (window c).
Proof.
  destruct c as [i j]. unfold window. cbn.
  repeat (apply NoDup_cons; split;
          [rewrite ?elem_of_cons, elem_of_nil; intros H;
           repeat (destruct H as [H | H]; [injection H; lia |]); done |]).
  apply NoDup_nil_2.
Qed.

Section Board.

Variable b : Minesweeper.t.
Hypothesis b_well_formed : well_formed b.
Implicit Types (c ij : Cell).

Lemma lookup_on_board ij :
  on_board b ij →
  ∃ row, Minesweeper.board b !! Z.to_nat ij.1 = Some row
         ∧ row !! Z.to_nat ij.2 = Some (mine_at b ij)
         ∧ Z.of_nat (length row) = Minesweeper.width b.
Proof.
  destruct b_well_formed as [Hh Hw]. intros [Hi Hj].
  destruct (lookup_lt_is_Some_2 (Minesweeper.board b) (Z.to_nat ij.1))
    as [row Hrow]; [lia |].
  pose proof (Forall_lookup_1 _ _ _ _ Hw Hrow) as Hlen. simpl in Hlen.
  destruct (lookup_lt_is_Some_2 row (Z.to_nat ij.2)) as [v Hv]; [lia |].
  exists row. unfold mine_at. by rewrite Hrow, Hv.
Qed.

Lemma py_getitem_in_range {A} (l : list A) (i : Z) :
  0 ≤ i < Z.of_nat (length l) → py_getitem l i = py_index l i.
Proof.
  intros Hi. unfold py_getitem. cbv zeta.
  rewrite (bool_decide_eq_false_2 (i < 0)) by lia.
  by rewrite !bool_decide_eq_true_2 by lia.
Qed.

Lemma is_mine_on_board ij :
  on_board b ij → Minesweeper.is_mine b ij = Ret (mine_at b ij).
Proof.
  intros Hij. destruct (lookup_on_board ij Hij) as (row & Hrow & Hv & Hlen).
  destruct b_well_formed as [Hh _]. destruct Hij as [Hi Hj].
  unfold Minesweeper.is_mine.
  rewrite py_getitem_in_range by lia.
  unfold py_index at 1. rewrite Hrow. simpl.
  rewrite py_getitem_in_range by lia.
  unfold py_index. by rewrite Hv.
Qed.

Lemma nearby_step_spec c n ij :
  Minesweeper.nearby_step b c (Ret n) ij =
  Ret (if decide (ij ≠ c ∧ on_board b ij ∧ mine_at b ij = true)
       then n + 1 else n).
Proof.
  unfold Minesweeper.nearby_step. simpl.
  destruct (bool_decide_reflect (ij = c)) as [-> | Hne].
  { rewrite decide_False; [done | tauto]. }
  destruct (decide (on_board b ij)) as [Hij | Hij].
  - destruct (lookup_on_board ij Hij) as (row & Hrow & Hv & _).
    destruct Hij as [? ?]. rewrite !bool_decide_eq_true_2 by lia. simpl.
    unfold py_index. rewrite Hrow. simpl. rewrite Hv. simpl.
    destruct (mine_at b ij).
    + rewrite decide_True; [done |]. split_and!; [done | by split | done].
    + rewrite decide_False; [done |]. by intros (_ & _ & ?).
  - rewrite decide_False by tauto.
    unfold on_board in Hij.
    destruct (bool_decide_reflect (0 ≤ ij.1)), (bool_decide_reflect (ij.1 < Minesweeper.height b)),
      (bool_decide_reflect (0 ≤ ij.2)), (bool_decide_reflect (ij.2 < Minesweeper.width b));
      simpl; try done.
    lia.
Qed.

Lemma nearby_fold c (l : list Cell) n :
  foldl (Minesweeper.nearby_step b c) (Ret n) l =
  Ret (n + Z.of_nat (length (filter
         (λ ij, ij ≠ c ∧ on_board b ij ∧ mine_at b ij = true) l))).
Proof.
  revert n. induction l as [| ij l IH]; intros n; cbn [foldl].
  { simpl. by rewrite Z.add_0_r. }
  rewrite nearby_step_spec, IH, filter_cons.
  repeat case_decide; try tauto; simpl; f_equal; lia.
Qed.

Lemma nearby_mines_window c :
  Minesweeper.nearby_mines b c =
  Ret (Z.of_nat (length (filter
         (λ ij, ij ≠ c ∧ on_board b ij ∧ mine_at b ij = true) (window c)))).
Proof.
  unfold Minesweeper.nearby_mines. rewrite !py_range_3.
  rewrite (foldl_nested (Minesweeper.nearby_step b c)).
  fold (window c). by rewrite nearby_fold.
Qed.

End Board.

Lemma board_1x3_well_formed : well_formed board_1x3.
Proof. split; [reflexivity | repeat constructor]. Qed.

Lemma board_1x3_placement : placement_of board_1x3 {[(0, 1)]}.
Proof.
  intros [i j]. rewrite elem_of_singleton. split.
  - intros [= -> ->]. split; [| reflexivity]. unfold on_board; simpl. lia.
  - intros [[Hi Hj] Hm]. simpl in Hi, Hj.
    assert (i = 0) as -> by lia.
    assert (j = 0 ∨ j = 1 ∨ j = 2) as [-> | [-> | ->]] by lia;
      [discriminate Hm | reflexivity | discriminate Hm].
Qed.

(** X6. On a board of [height] rows of [width] entries, [nearby_mines]
    never raises, for a cell off the board either: it returns the number of
    cells of the 3 x 3 window around the cell, the cell itself left out, that
    are on the board and for which [is_mine] is [True]; the number is between
    0 and 8. *)
Theorem nearby_mines_counts (b : Minesweeper.t) (c : Cell) :
  well_formed b →
  ∃ n, Minesweeper.nearby_mines b c = Ret n
       ∧ n = Z.of_nat (length (filter
               (λ ij, ij ≠ c ∧ on_board b ij
                      ∧ Minesweeper.is_mine b ij = Ret true)
               (window c)))
       ∧ 0 ≤ n ≤ 8.
Proof.
  intros Hb. rewrite (nearby_mines_window b Hb). eexists. split; [done |].
  split.
  - do 2 f_equal. apply list_filter_iff. intros ij.
    split; intros (? & Hij & Hm); (split_and!; [done | done |]);
      rewrite (is_mine_on_board b Hb ij Hij) in *; congruence.
  - split; [lia |].
    pose proof (length_filter_lt
                  (λ ij, ij ≠ c ∧ on_board b ij ∧ mine_at b ij = true)
                  (window c) c (elem_of_window_self c)) as Hlt.
    rewrite window_length in Hlt. apply Nat2Z.inj_lt in Hlt; [lia | tauto].
Qed.

Lemma nearby_mines_counts_witness :
  ∃ n, Minesweeper.nearby_mines board_1x3 (0, 3) = Ret n
       ∧ n = Z.of_nat (length (filter
               (λ ij, ij ≠ (0, 3) ∧ on_board board_1x3 ij
                      ∧ Minesweeper.is_mine board_1x3 ij = Ret true)
               (window (0, 3))))
       ∧ 0 ≤ n ≤ 8.
Proof.
  apply (nearby_mines_counts board_1x3 (0, 3) board_1x3_well_formed).
Defined.

(** X7. The count the board reports is the count the agent's sentence is
    about: for a board and an agent of the same dimensions, [nearby_mines]
    returns the number of the agent's neighbours of the cell that are mines
    of the board. *)
Theorem nearby_mines_is_true_count (b : Minesweeper.t) (M : gset Cell)
    (st : MinesweeperAI.t) (c : Cell) :
  well_formed b →
  placement_of b M →
  MinesweeperAI.height st = Minesweeper.height b →
  MinesweeperAI.width st = Minesweeper.width b →
  Minesweeper.nearby_mines b c
  = Ret (Z.of_nat (size (mined_neighbours M st c))).
Proof.
  intros Hb HM Hh Hw. rewrite (nearby_mines_window b Hb). do 2 f_equal.
  unfold mined_neighbours.
  replace (list_to_set (neighbours st c) ∩ M)
    with (list_to_set (C := gset Cell)
            (filter (λ ij, ij ∈ M) (neighbours st c))).
  2: { apply set_eq. intros x.
       rewrite elem_of_intersection, !elem_of_list_to_set, list_elem_of_filter.
       tauto. }
  rewrite size_list_to_set
    by (unfold neighbours; apply NoDup_filter, NoDup_filter, NoDup_window).
  f_equal. unfold neighbours. rewrite list_filter_filter.
  apply list_filter_iff. intros ij. rewrite (HM ij).
  unfold in_bounds, on_board. rewrite Hh, Hw.
  split.
  - intros (? & Hij & Hm). rewrite (is_mine_on_board b Hb ij Hij), Hm.
    split_and!; try done; apply Hij.
  - intros ((Hij & Hm) & ? & _).
    rewrite (is_mine_on_board b Hb ij Hij) in Hm.
    split_and!; try done; try apply Hij. congruence.
Qed.

Lemma nearby_mines_is_true_count_witness :
  Minesweeper.nearby_mines board_1x3 (0, 2)
  = Ret (Z.of_nat (size (mined_neighbours {[(0, 1)]}
                           (MinesweeperAI.init 1 3) (0, 2)))).
Proof.
  apply (nearby_mines_is_true_count board_1x3 {[(0, 1)]}
           (MinesweeperAI.init 1 3) (0, 2)
           board_1x3_well_formed board_1x3_placement);
    reflexivity.
Defined.

(** ** The order of iteration over a set *)

Section IterationOrder.

Import MinesweeperAI.
Implicit Types (st : MinesweeperAI.t) (c : Cell) (s : Sentence.t).

Lemma mark_safe_eq s c :
  Sentence.mark_safe c s
  = Sentence.mk (Sentence.cells s ∖ {[c]}) (Sentence.count s).
Proof.
  unfold Sentence.mark_safe. case_bool_decide; [done |].
  destruct s as [X n]; simpl in *. f_equal. set_solver.
Qed.

Lemma mark_safe_comm s c1 c2 :
  Sentence.mark_safe c1 (Sentence.mark_safe c2 s)
  = Sentence.mark_safe c2 (Sentence.mark_safe c1 s).
Proof. rewrite !mark_safe_eq; simpl. f_equal. set_solver. Qed.

Lemma mark_mine_eq s c :
  Sentence.mark_mine c s
  = Sentence.mk (Sentence.cells s ∖ {[c]})
                (Sentence.count s
                 - (if bool_decide (c ∈ Sentence.cells s) then 1 else 0)).
Proof.
  unfold Sentence.mark_mine. destruct s as [X n]; simpl.
  case_bool_decide; f_equal; set_solver || lia.
Qed.

Lemma mark_mine_comm s c1 c2 :
  Sentence.mark_mine c1 (Sentence.mark_mine c2 s)
  = Sentence.mark_mine c2 (Sentence.mark_mine c1 s).
Proof.
  destruct (decide (c1 = c2)) as [-> | Hne]; [done |].
  rewrite !mark_mine_eq; simpl. f_equal; [set_solver |].
  rewrite (bool_decide_ext (c1 ∈ Sentence.cells s ∖ {[c2]})
                           (c1 ∈ Sentence.cells s)) by set_solver.
  rewrite (bool_decide_ext (c2 ∈ Sentence.cells s ∖ {[c1]})
                           (c2 ∈ Sentence.cells s)) by set_solver.
  lia.
Qed.

Lemma mark_safe_mine_comm s c1 c2 :
  c1 ≠ c2 →
  Sentence.mark_safe c1 (Sentence.mark_mine c2 s)
  = Sentence.mark_mine c2 (Sentence.mark_safe c1 s).
Proof.
  intros Hne. rewrite !mark_safe_eq, !mark_mine_eq; simpl.
  f_equal; [set_solver |].
  by rewrite (bool_decide_ext (c2 ∈ Sentence.cells s ∖ {[c1]})
                              (c2 ∈ Sentence.cells s)) by set_solver.
Qed.

Lemma foldl_marks_perm (f : Cell → Sentence.t → Sentence.t)
    (l1 l2 : list Cell) (k : list Sentence.t) :
  (∀ s c1 c2, f c1 (f c2 s) = f c2 (f c1 s)) →
  l1 ≡ₚ l2 →
  foldl (λ k c, f c <$> k) k l1 = foldl (λ k c, f c <$> k) k l2.
Proof.
  intros Hf Hp. revert k.
  induction Hp as [| x l1 l2 _ IH | x y l | l1 l2 l3 _ IH1 _ IH2]; intros k;
    simpl.
  - done.
  - apply IH.
  - f_equal. rewrite <- !list_fmap_compose. apply list_fmap_ext.
    intros _ s _. simpl. apply Hf.
  - by rewrite IH1, IH2.
Qed.

Variables set_iter1 set_iter2 : gset Cell → list Cell.
Hypothesis set_iter1_perm : ∀ X, set_iter1 X ≡ₚ elements X.
Hypothesis set_iter2_perm : ∀ X, set_iter2 X ≡ₚ elements X.

Lemma set_iter_perm_perm X : set_iter1 X ≡ₚ set_iter2 X.
Proof. by rewrite set_iter1_perm, set_iter2_perm. Qed.

Lemma marked_order st :
  knowledge (marked set_iter1 st) = knowledge (marked set_iter2 st).
Proof.
  unfold marked. rewrite !foldl_mark_mine, !foldl_mark_safe. simpl.
  rewrite (foldl_marks_perm Sentence.mark_safe
             (set_iter1 (safe_cells (knowledge st)))
             (set_iter2 (safe_cells (knowledge st))))
    by (intros; apply mark_safe_comm || apply set_iter_perm_perm).
  apply foldl_marks_perm; [intros; apply mark_mine_comm |].
  apply set_iter_perm_perm.
Qed.

Lemma simplify_order st :
  ∃ st1 st2,
    simplify set_iter1 st = Ret st1 ∧ simplify set_iter2 st = Ret st2
    ∧ knowledge st1 = knowledge st2
    ∧ moves_made st1 = moves_made st2
    ∧ safes st1 ≡ₚ safes st2
    ∧ mines st1 ≡ₚ mines st2.
Proof.
  rewrite !simplify_unfold, (marked_order st).
  destruct (remove_each_returns (empty_sentences (knowledge st))
              (knowledge (marked set_iter2 st))) as (l' & -> & _).
  { apply empty_sentences_kept, keeps_empty_marked. }
  simpl. do 2 eexists. split_and!; try done; simpl.
  - destruct (marked_fields set_iter1 st) as (_ & _ & -> & _).
    by destruct (marked_fields set_iter2 st) as (_ & _ & -> & _).
  - destruct (marked_fields set_iter1 st) as (_ & _ & _ & _ & ->).
    destruct (marked_fields set_iter2 st) as (_ & _ & _ & _ & ->).
    by rewrite set_iter_perm_perm.
  - destruct (marked_fields set_iter1 st) as (_ & _ & _ & -> & _).
    destruct (marked_fields set_iter2 st) as (_ & _ & _ & -> & _).
    by rewrite set_iter_perm_perm.
Qed.

End IterationOrder.

(** X8. The order in which Python visits a set does not change what the
    agent learns: under any two orders of iteration [add_knowledge] returns
    agents with the same [knowledge] and [moves_made], and with the same
    cells in [safes] and in [mines], each as often; only the order in which
    new cells are appended to the two lists can differ. *)
Theorem add_knowledge_order_independent
    (set_iter1 set_iter2 : gset Cell → list Cell)
    (st : MinesweeperAI.t) (c : Cell) (n : Z) :
  (∀ X, set_iter1 X ≡ₚ elements X) →
  (∀ X, set_iter2 X ≡ₚ elements X) →
  ∃ st1 st2,
    MinesweeperAI.add_knowledge set_iter1 st c n = Ret st1
    ∧ MinesweeperAI.add_knowledge set_iter2 st c n = Ret st2
    ∧ MinesweeperAI.knowledge st1 = MinesweeperAI.knowledge st2
    ∧ MinesweeperAI.moves_made st1 = MinesweeperAI.moves_made st2
    ∧ MinesweeperAI.safes st1 ≡ₚ MinesweeperAI.safes st2
    ∧ MinesweeperAI.mines st1 ≡ₚ MinesweeperAI.mines st2.
Proof.
  intros H1 H2. unfold MinesweeperAI.add_knowledge.
  by apply simplify_order.
Qed.

Lemma add_knowledge_order_independent_witness :
  ∃ st1 st2,
    MinesweeperAI.add_knowledge elements (MinesweeperAI.init 3 3) (1, 1) 0
    = Ret st1
    ∧ MinesweeperAI.add_knowledge (λ X, reverse (elements X))
        (MinesweeperAI.init 3 3) (1, 1) 0 = Ret st2
    ∧ MinesweeperAI.knowledge st1 = MinesweeperAI.knowledge st2
    ∧ MinesweeperAI.moves_made st1 = MinesweeperAI.moves_made st2
    ∧ MinesweeperAI.safes st1 ≡ₚ MinesweeperAI.safes st2
    ∧ MinesweeperAI.mines st1 ≡ₚ MinesweeperAI.mines st2.
Proof.
  apply (add_knowledge_order_independent elements (λ X, reverse (elements X))
           (MinesweeperAI.init 3 3) (1, 1) 0 elements_lists_members).
  intros X. apply reverse_Permutation.
Defined.

(** ** What every call of add_knowledge does *)

(** X9. [add_knowledge] never raises, whatever the agent, the cell and the
    count, and it only adds: [height] and [width] stay, [moves_made] gains
    the cell, the old [safes] and [mines] are the beginnings of the new
    lists, and the cell is in [safes]. *)
Theorem add_knowledge_grows (set_iter : gset Cell → list Cell)
    (st : MinesweeperAI.t) (c : Cell) (n : Z) :
  ∃ st',
    MinesweeperAI.add_knowledge set_iter st c n = Ret st'
    ∧ MinesweeperAI.height st' = MinesweeperAI.height st
    ∧ MinesweeperAI.width st' = MinesweeperAI.width st
    ∧ MinesweeperAI.moves_made st' = MinesweeperAI.moves_made st ∪ {[c]}
    ∧ MinesweeperAI.safes st `prefix_of` MinesweeperAI.safes st'
    ∧ MinesweeperAI.mines st `prefix_of` MinesweeperAI.mines st'
    ∧ c ∈ MinesweeperAI.safes st'.
Proof.
  destruct (add_knowledge_returns set_iter st c n)
    as (st' & Hr & Hh & Hw & Hv & Hm & Hs).
  exists st'. split_and!; try done.
  - rewrite Hs. by eexists.
  - rewrite Hm. by eexists.
  - rewrite Hs. set_solver.
Qed.

Lemma reveal_all_from (set_iter : gset Cell → list Cell)
    (st : MinesweeperAI.t) (reveals : list (Cell * Z)) :
  (∀ c, c ∈ MinesweeperAI.moves_made st → c ∈ MinesweeperAI.safes st) →
  ∃ st',
    reveal_all set_iter st reveals = Ret st'
    ∧ MinesweeperAI.height st' = MinesweeperAI.height st
    ∧ MinesweeperAI.width st' = MinesweeperAI.width st
    ∧ MinesweeperAI.moves_made st'
      = MinesweeperAI.moves_made st ∪ list_to_set reveals.*1
    ∧ (∀ c, c ∈ MinesweeperAI.moves_made st' → c ∈ MinesweeperAI.safes st').
Proof.
  revert st. induction reveals as [| [c n] reveals IH]; intros st Hst.
  - exists st. split_and!; try done. simpl. set_solver.
  - destruct (add_knowledge_returns set_iter st c n)
      as (st1 & Hr & Hh & Hw & Hv & _ & Hs).
    destruct (IH st1) as (st' & Hr' & Hh' & Hw' & Hv' & Hs').
    { intros x. rewrite Hv, Hs, elem_of_union, elem_of_singleton, !elem_of_app.
      intros [Hx | ->]; [left; by apply Hst | right; left; set_solver]. }
    exists st'. simpl. rewrite Hr. simpl. split_and!; try congruence; [| done].
    rewrite Hv', Hv. set_solver.
Qed.

(** X10. No game raises: from a fresh agent, whatever cells are revealed
    and whatever counts are reported, every call of [add_knowledge] returns;
    afterwards [moves_made] is exactly the set of the revealed cells, and
    each of them is in [safes]. *)
Theorem reveals_never_raise (set_iter : gset Cell → list Cell)
    (height width : Z) (reveals : list (Cell * Z)) :
  ∃ st',
    reveal_all set_iter (MinesweeperAI.init height width) reveals = Ret st'
    ∧ MinesweeperAI.height st' = height
    ∧ MinesweeperAI.width st' = width
    ∧ MinesweeperAI.moves_made st' = list_to_set reveals.*1
    ∧ (∀ c, c ∈ MinesweeperAI.moves_made st' → c ∈ MinesweeperAI.safes st').
Proof.
  destruct (reveal_all_from set_iter (MinesweeperAI.init height width) reveals)
    as (st' & Hr & Hh & Hw & Hv & Hs).
  { simpl. set_solver. }
  exists st'. split_and!; try done. rewrite Hv. simpl. set_solver.
Qed.

Section ForcedReveals.

Import MinesweeperAI.
Implicit Types (st : MinesweeperAI.t) (c x : Cell).

Lemma new_sentence_in_record_move st c n :
  Sentence.mk (unknown_neighbours st c) (n - known_mine_neighbours st c)
  ∈ knowledge (record_move st c n).
Proof. rewrite record_move_spec. simpl. set_solver. Qed.

Lemma neighbour_known_or_unknown st c x :
  x ∈ neighbours st c → x ∈ safes st ∨ x ∈ unknown_neighbours st c.
Proof.
  intros Hx. destruct (decide (x ∈ safes st)); [by left | right].
  unfold unknown_neighbours.
  by rewrite elem_of_list_to_set, list_elem_of_filter.
Qed.

End ForcedReveals.

(** X11. A reveal that leaves no choice is resolved in the same call. If
    the count equals the number of neighbours already in [mines], every
    neighbour of the cell is in [safes] when [add_knowledge] returns; if the
    count less that number equals the number of neighbours not in [safes],
    each of those is in [mines] when it returns. *)
Theorem forced_reveal_resolved (set_iter : gset Cell → list Cell)
    (st : MinesweeperAI.t) (c : Cell) (n : Z) :
  (∀ X, set_iter X ≡ₚ elements X) →
  ∃ st',
    MinesweeperAI.add_knowledge set_iter st c n = Ret st'
    ∧ (n = known_mine_neighbours st c →
       ∀ x, x ∈ neighbours st c → x ∈ MinesweeperAI.safes st')
    ∧ (n - known_mine_neighbours st c
       = Z.of_nat (size (unknown_neighbours st c)) →
       ∀ x, x ∈ unknown_neighbours st c → x ∈ MinesweeperAI.mines st').
Proof.
  intros Hperm.
  destruct (add_knowledge_returns set_iter st c n)
    as (st' & Hr & _ & _ & _ & Hm & Hs).
  exists st'. split_and!; [done | |].
  - intros Hn x Hx. rewrite Hs, !elem_of_app.
    destruct (neighbour_known_or_unknown st c x Hx) as [? | Hu]; [by left |].
    right; right. apply (elem_of_set_iter set_iter Hperm).
    apply elem_of_safe_cells. eexists. split_and!.
    + apply new_sentence_in_record_move.
    + simpl. lia.
    + done.
  - intros Hn x Hx. rewrite Hm, elem_of_app. right.
    apply (elem_of_set_iter set_iter Hperm).
    apply elem_of_mine_cells. eexists. split_and!.
    + apply new_sentence_in_record_move.
    + simpl. lia.
    + done.
Qed.

(** The scenario of a 3 x 3 board whose centre is revealed with count 0. *)
Lemma forced_reveal_resolved_witness :
  ∃ st',
    MinesweeperAI.add_knowledge elements (MinesweeperAI.init 3 3) (1, 1) 0
    = Ret st'
    ∧ (0 = known_mine_neighbours (MinesweeperAI.init 3 3) (1, 1) →
       ∀ x, x ∈ neighbours (MinesweeperAI.init 3 3) (1, 1)
            → x ∈ MinesweeperAI.safes st')
    ∧ (0 - known_mine_neighbours (MinesweeperAI.init 3 3) (1, 1)
       = Z.of_nat (size (unknown_neighbours (MinesweeperAI.init 3 3) (1, 1))) →
       ∀ x, x ∈ unknown_neighbours (MinesweeperAI.init 3 3) (1, 1)
            → x ∈ MinesweeperAI.mines st').
Proof.
  apply (forced_reveal_resolved elements (MinesweeperAI.init 3 3) (1, 1) 0
           elements_lists_members).
Defined.

Example centre_reveal_marks_all_safe :
  (st' ← MinesweeperAI.add_knowledge elements (MinesweeperAI.init 3 3) (1, 1) 0;
   Ret (bool_decide (neighbours (MinesweeperAI.init 3 3) (1, 1)
                     ⊆ MinesweeperAI.safes st'),
        length (neighbours (MinesweeperAI.init 3 3) (1, 1))))
  = Ret (true, 8%nat).
Proof. evaluate. Qed.

(** ** Random moves: which sample is returned *)

Section RandomMoveComplete.

Import MinesweeperAI.
Variables (draws : nat → Cell) (st : MinesweeperAI.t).
Hypothesis rows : 0 < height st.
Hypothesis columns : 0 < width st.

Lemma random_step_None i :
  random_step st draws (Ret None) (Z.of_nat i) =
  Ret (if decide (playable st (draws i)) then Some (draws i) else None).
Proof.
  unfold random_step, playable. simpl. rewrite Nat2Z.id.
  rewrite !bool_decide_eq_true_2 by done. simpl.
  destruct (decide (draws i ∉ mines st)) as [H1 | H1],
           (decide (draws i ∉ moves_made st)) as [H2 | H2];
    rewrite ?(bool_decide_eq_true_2 _ H1), ?(bool_decide_eq_false_2 _ H1),
            ?(bool_decide_eq_true_2 _ H2), ?(bool_decide_eq_false_2 _ H2);
    simpl; (rewrite decide_True by done) || (rewrite decide_False by tauto);
    done.
Qed.

Lemma attempts_all_refused n :
  (∀ j, (j < n)%nat → ¬ playable st (draws j)) →
  attempts draws st n = Ret None.
Proof.
  induction n as [| n IH]; intros Hbad; [done |].
  rewrite attempts_S, IH by (intros j ?; apply Hbad; lia).
  rewrite random_step_None, decide_False; [done | apply Hbad; lia].
Qed.

Lemma attempts_first_playable n i :
  (i < n)%nat →
  playable st (draws i) →
  (∀ j, (j < i)%nat → ¬ playable st (draws j)) →
  attempts draws st n = Ret (Some (draws i)).
Proof.
  intros Hi Hgood Hbad. induction n as [| n IH]; [lia |].
  rewrite attempts_S.
  destruct (decide (i = n)) as [-> | Hne].
  - rewrite attempts_all_refused by done.
    by rewrite random_step_None, decide_True.
  - by rewrite IH by lia.
Qed.

End RandomMoveComplete.

(** X12. Which sample [make_random_move] returns. On a board without rows
    or without columns it raises [ValueError]. Otherwise it returns the
    first of the 500 samples that is neither in [mines] nor in [moves_made],
    and [None] when there is none. *)
Theorem make_random_move_first_playable (draws : nat → Cell)
    (st : MinesweeperAI.t) :
  (¬ (0 < MinesweeperAI.height st ∧ 0 < MinesweeperAI.width st) →
   (MinesweeperAI.make_random_move draws st).1 = Raise ValueError)
  ∧ (0 < MinesweeperAI.height st → 0 < MinesweeperAI.width st →
     (∀ i, (i < 500)%nat → playable st (draws i) →
           (∀ j, (j < i)%nat → ¬ playable st (draws j)) →
           (MinesweeperAI.make_random_move draws st).1
           = Ret (Some (draws i)))
     ∧ ((∀ j, (j < 500)%nat → ¬ playable st (draws j)) →
        (MinesweeperAI.make_random_move draws st).1 = Ret None)).
Proof.
  rewrite make_random_move_attempts. split.
  - apply (attempts_empty_board draws st 499).
  - intros Hh Hw. split.
    + intros i. by apply attempts_first_playable.
    + by apply attempts_all_refused.
Qed.

(** ** The opening move (lines 258-267) *)

Section VerySafeMove.

Import MinesweeperAI.
Variables (draws : nat → Cell) (st : MinesweeperAI.t) (b : Minesweeper.t).

Lemma safe_attempts_S n :
  safe_attempts draws st b (S n)
  = very_safe_step st b draws (safe_attempts draws st b n) (Z.of_nat n).
Proof.
  unfold safe_attempts. rewrite seq_S, fmap_app, foldl_app. simpl.
  by rewrite Z.add_0_l.
Qed.

Lemma make_very_safe_move_attempts :
  (make_very_safe_move draws st b).1 = safe_attempts draws st b 500.
Proof. reflexivity. Qed.

(** One attempt, read through [is_mine] and [nearby_mines]. *)
Lemma very_safe_step_None i :
  very_safe_step st b draws (Ret None) (Z.of_nat i) =
  if bool_decide (0 < height st) && bool_decide (0 < width st)
  then mined ← Minesweeper.is_mine b (draws i);
       if negb mined
       then n ← Minesweeper.nearby_mines b (draws i);
            if bool_decide (n = 0) then Ret (Some (draws i)) else Ret None
       else Ret None
  else Raise ValueError.
Proof.
  unfold very_safe_step, Minesweeper.is_mine. simpl. rewrite Nat2Z.id.
  destruct (bool_decide (0 < height st) && bool_decide (0 < width st));
    [| done].
  by destruct (py_getitem (Minesweeper.board b) (draws i).1).
Qed.

Lemma safe_attempts_Some n c :
  safe_attempts draws st b n = Ret (Some c) → very_safe b c.
Proof.
  induction n as [| n IH]; [discriminate |].
  rewrite safe_attempts_S.
  destruct (safe_attempts draws st b n) as [[c' |] | e].
  - simpl. intros [= ->]. by apply IH.
  - rewrite very_safe_step_None. unfold very_safe.
    destruct (bool_decide (0 < height st) && bool_decide (0 < width st));
      [| discriminate].
    destruct (Minesweeper.is_mine b (draws n)) as [[|] | e] eqn:Hm; simpl;
      [discriminate | | discriminate].
    destruct (Minesweeper.nearby_mines b (draws n)) as [k | e] eqn:Hk; simpl;
      [| discriminate].
    case_bool_decide; [| discriminate]. intros [= <-]. by subst k.
  - discriminate.
Qed.

Lemma safe_attempts_None n :
  safe_attempts draws st b n = Ret None →
  ∀ i, (i < n)%nat → ¬ very_safe b (draws i).
Proof.
  induction n as [| n IH]; [intros _ i; lia |].
  rewrite safe_attempts_S.
  destruct (safe_attempts draws st b n) as [[c' |] | e];
    [discriminate | | discriminate].
  rewrite very_safe_step_None. intros H i Hi.
  destruct (decide (i = n)) as [-> | Hne]; [| apply IH; [done | lia]].
  intros [Hm Hn]. rewrite Hm, Hn in H. simpl in H.
  by destruct (bool_decide (0 < height st) && bool_decide (0 < width st)).
Qed.

Lemma safe_attempts_return n :
  well_formed b →
  0 < height st → 0 < width st →
  (∀ i, on_board b (draws i)) →
  ∃ r, safe_attempts draws st b n = Ret r.
Proof.
  intros Hb Hh Hw Hd. induction n as [| n [r IH]]; [by eexists |].
  rewrite safe_attempts_S, IH. destruct r as [c |]; [by eexists |].
  rewrite very_safe_step_None, !bool_decide_eq_true_2 by done. simpl.
  rewrite (is_mine_on_board b Hb _ (Hd n)), (nearby_mines_window b Hb). simpl.
  destruct (negb (mine_at b (draws n))); [| by eexists].
  case_bool_decide; by eexists.
Qed.

End VerySafeMove.

(** X13. The opening move reads the board, not the agent's knowledge. A
    cell returned by [make_very_safe_move] has no mine on the board and none
    next to it; [None] is returned only when none of the 500 samples is such
    a cell; the agent is left as it was; and on a board of [height] rows of
    [width] entries, with every sample on the board, the call does not
    raise. *)
Theorem make_very_safe_move_sound (draws : nat → Cell) (st : MinesweeperAI.t)
    (b : Minesweeper.t) :
  (∀ c, (MinesweeperAI.make_very_safe_move draws st b).1 = Ret (Some c) →
        very_safe b c)
  ∧ ((MinesweeperAI.make_very_safe_move draws st b).1 = Ret None →
     ∀ i, (i < 500)%nat → ¬ very_safe b (draws i))
  ∧ (MinesweeperAI.make_very_safe_move draws st b).2 = st
  ∧ (well_formed b →
     0 < MinesweeperAI.height st → 0 < MinesweeperAI.width st →
     (∀ i, on_board b (draws i)) →
     ∃ r, (MinesweeperAI.make_very_safe_move draws st b).1 = Ret r).
Proof.
  rewrite make_very_safe_move_attempts. split_and!; [| | done |].
  - intros c. apply safe_attempts_Some.
  - apply safe_attempts_None.
  - apply safe_attempts_return.
Qed.

Example opening_move_on_board_1x3 :
  (MinesweeperAI.make_very_safe_move (λ i, (0, Z.of_nat i `mod` 3))
     (MinesweeperAI.init 1 3) board_1x3).1 = Ret None
  ∧ (MinesweeperAI.make_very_safe_move (λ _, (0, 0))
       (MinesweeperAI.init 1 3)
       (Minesweeper.mk 1 3 [[false; false; true]])).1 = Ret (Some (0, 0)).
Proof. split; evaluate. Qed.

(** ** Sentences as values *)

(** X14. Two sentences built by the constructor compare equal exactly when
    they were given the same cells, in any order and however often, and the
    same count. *)
Theorem sentence_eq_members (l1 l2 : list Cell) (n1 n2 : Z) :
  Sentence.eqb (Sentence.init l1 n1) (Sentence.init l2 n2) = true
  ↔ (∀ x, x ∈ l1 ↔ x ∈ l2) ∧ n1 = n2.
Proof.
  rewrite eqb_eq. unfold Sentence.init. split.
  - intros [= Hc ->]. split; [| done]. intros x.
    by rewrite <- !(elem_of_list_to_set (C := gset Cell)), Hc.
  - intros [Hc ->]. f_equal. apply set_eq. intros x.
    by rewrite !elem_of_list_to_set.
Qed.

(** X15. How the marks of a sentence compose. Each mark is idempotent; two
    [mark_safe], and two [mark_mine], commute; a [mark_safe] and a
    [mark_mine] of different cells commute; of the same cell the first one
    made decides, the second finding the cell gone. *)
Theorem marks_compose (s : Sentence.t) (c1 c2 : Cell) :
  Sentence.mark_safe c1 (Sentence.mark_safe c1 s) = Sentence.mark_safe c1 s
  ∧ Sentence.mark_mine c1 (Sentence.mark_mine c1 s) = Sentence.mark_mine c1 s
  ∧ Sentence.mark_safe c1 (Sentence.mark_safe c2 s)
    = Sentence.mark_safe c2 (Sentence.mark_safe c1 s)
  ∧ Sentence.mark_mine c1 (Sentence.mark_mine c2 s)
    = Sentence.mark_mine c2 (Sentence.mark_mine c1 s)
  ∧ (c1 ≠ c2 →
     Sentence.mark_safe c1 (Sentence.mark_mine c2 s)
     = Sentence.mark_mine c2 (Sentence.mark_safe c1 s))
  ∧ Sentence.mark_mine c1 (Sentence.mark_safe c1 s) = Sentence.mark_safe c1 s
  ∧ Sentence.mark_safe c1 (Sentence.mark_mine c1 s) = Sentence.mark_mine c1 s.
Proof.
  split_and!.
  - apply mark_safe_twice.
  - apply mark_mine_twice.
  - apply mark_safe_comm.
  - apply mark_mine_comm.
  - apply mark_safe_mine_comm.
  - apply mark_mine_absent. rewrite mark_safe_cells. set_solver.
  - apply mark_safe_absent. rewrite mark_mine_cells. set_solver.
Qed.

(** ** Safe moves in the order they were learnt *)

(** X16. [make_safe_move] returns the earliest cell of the list [safes]
    that is neither in [moves_made] nor in [mines]: it returns a cell exactly
    when the cell stands at some position of [safes], is in neither, and
    every cell before that position is in one of the two. *)
Theorem make_safe_move_earliest (st : MinesweeperAI.t) (c : Cell) :
  (MinesweeperAI.make_safe_move st).1 = Some c
  ↔ ∃ i : nat,
      MinesweeperAI.safes st !! i = Some c
      ∧ (c ∉ MinesweeperAI.moves_made st)
      ∧ (c ∉ MinesweeperAI.mines st)
      ∧ ∀ (j : nat) (y : Cell),
          MinesweeperAI.safes st !! j = Some y → (j < i)%nat →
          y ∈ MinesweeperAI.moves_made st ∨ y ∈ MinesweeperAI.mines st.
Proof.
  unfold MinesweeperAI.make_safe_move; simpl. rewrite fmap_Some. split.
  - intros ([i x] & (Hi & [H1 H2] & Hj)%list_find_Some & ->). simpl.
    exists i. split_and!; try done.
    intros j y Hy Hlt. specialize (Hj j y Hy Hlt).
    destruct (decide (y ∈ MinesweeperAI.moves_made st)); [by left |].
    destruct (decide (y ∈ MinesweeperAI.mines st)); [by right | tauto].
  - intros (i & Hi & H1 & H2 & Hj). exists (i, c). split; [| done].
    apply list_find_Some. split_and!; try done.
    intros j y Hy Hlt [? ?]. destruct (Hj j y Hy Hlt); tauto.
Qed.

(** ** Duplicates in the knowledge base (lines 216-235) *)

Section Duplicates.

Import MinesweeperAI.
Implicit Types (s a : Sentence.t) (k l : list Sentence.t).

Lemma pair_step_removed_distinct a acc b :
  a ≠ b → (pair_step a acc b).1 = acc.1.
Proof.
  intros Hne%eqb_neq. unfold pair_step. rewrite Hne.
  by repeat case_bool_decide.
Qed.

Lemma subset_pairs_removed_NoDup k acc :
  NoDup k → (subset_pairs k acc).1 = acc.1.
Proof.
  intros Hk. revert acc. induction Hk as [| a k Ha _ IH]; intros acc; [done |].
  simpl. rewrite IH. clear IH. revert acc.
  induction k as [| b k IH]; intros acc; [done |]. simpl.
  rewrite IH by set_solver. apply pair_step_removed_distinct. set_solver.
Qed.

Lemma append_missing_spec (added : list Sentence.t) k :
  NoDup k →
  let k' := foldl (λ k s, if negb (contains k s) then k ++ [s] else k)
                  k added in
  NoDup k' ∧ k `prefix_of` k' ∧ (∀ s, s ∈ k' ↔ s ∈ k ∨ s ∈ added).
Proof.
  revert k. induction added as [| x added IH]; intros k Hk; simpl.
  { split_and!; [done | done | set_solver]. }
  destruct (contains k x) eqn:E; simpl.
  - apply contains_elem_of in E.
    destruct (IH k Hk) as (H1 & H2 & H3). split_and!; [done | done |].
    intros s. rewrite H3. set_solver.
  - assert (x ∉ k) by (rewrite <- contains_elem_of; congruence).
    destruct (IH (k ++ [x])) as (H1 & H2 & H3).
    { apply NoDup_app. split_and!; [done | set_solver | apply NoDup_singleton]. }
    split_and!; [done | |].
    + etrans; [| done]. by apply prefix_app_r.
    + intros s. rewrite H3. set_solver.
Qed.

End Duplicates.

(** X17. On a knowledge base without two equal sentences the end of the
    pass removes nothing and adds no duplicate: the list after lines 216-235
    starts with the old list, holds in addition exactly the sentences the
    subset loop derived, and again has no two equal sentences. *)
Theorem resolve_subsets_no_duplicates (k : list Sentence.t) :
  NoDup k →
  NoDup (resolve_subsets k)
  ∧ k `prefix_of` resolve_subsets k
  ∧ ∀ s, s ∈ resolve_subsets k
         ↔ s ∈ k ∨ s ∈ (MinesweeperAI.subset_pairs k ([], [])).2.
Proof.
  intros Hk. unfold resolve_subsets.
  pose proof (subset_pairs_removed_NoDup k ([], []) Hk) as Hr.
  destruct (MinesweeperAI.subset_pairs k ([], [])) as [removed added].
  simpl in Hr. subst removed. simpl. by apply append_missing_spec.
Qed.

Lemma resolve_subsets_no_duplicates_witness :
  NoDup (resolve_subsets
           [Sentence.mk {[(0, 1); (1, 0)]} 1; Sentence.mk {[(0, 1)]} 0])
  ∧ [Sentence.mk {[(0, 1); (1, 0)]} 1; Sentence.mk {[(0, 1)]} 0]
    `prefix_of` resolve_subsets
                  [Sentence.mk {[(0, 1); (1, 0)]} 1; Sentence.mk {[(0, 1)]} 0]
  ∧ ∀ s, s ∈ resolve_subsets
               [Sentence.mk {[(0, 1); (1, 0)]} 1; Sentence.mk {[(0, 1)]} 0]
         ↔ s ∈ [Sentence.mk {[(0, 1); (1, 0)]} 1; Sentence.mk {[(0, 1)]} 0]
           ∨ s ∈ (MinesweeperAI.subset_pairs
                    [Sentence.mk {[(0, 1); (1, 0)]} 1; Sentence.mk {[(0, 1)]} 0]
                    ([], [])).2.
Proof.
  apply (resolve_subsets_no_duplicates
           [Sentence.mk {[(0, 1); (1, 0)]} 1; Sentence.mk {[(0, 1)]} 0]).
  decide_by_evaluation.
Defined.

(** X18. Equal sentences are not reduced to one. Of two equal sentences the
    end of the pass keeps one; of three it keeps none, each of the three
    pairs removing a copy. *)
Theorem duplicates_two_and_three (s : Sentence.t) :
  resolve_subsets [s; s] = [s] ∧ resolve_subsets [s; s; s] = [].
Proof.
  unfold resolve_subsets. simpl. unfold MinesweeperAI.pair_step.
  by repeat (progress (rewrite ?eqb_refl; simpl)).
Qed.

(** ** Laying the mines (lines 9-33) *)

Lemma foldl_snoc_const {A B : Type} (x : A) (l : list B) (acc : list A) :
  foldl (λ acc _, acc ++ [x]) acc l = acc ++ replicate (length l) x.
Proof.
  revert acc. induction l as [| y l IH]; intros acc; simpl.
  - by rewrite app_nil_r.
  - rewrite IH, <- app_assoc. done.
Qed.

Lemma py_range_length (n : Z) : length (py_range 0 n) = Z.to_nat n.
Proof. unfold py_range. rewrite length_fmap, length_seq. f_equal. lia. Qed.

Lemma empty_board_replicate (h w : Z) :
  Minesweeper.empty_board h w
  = replicate (Z.to_nat h) (replicate (Z.to_nat w) false).
Proof.
  unfold Minesweeper.empty_board.
  rewrite (foldl_snoc_const false), py_range_length. simpl.
  by rewrite (foldl_snoc_const (replicate (Z.to_nat w) false)), py_range_length.
Qed.

Lemma py_setitem_in_range {A} (l : list A) (i : Z) (v : A) :
  0 ≤ i < Z.of_nat (length l) →
  py_setitem l i v = Ret (<[Z.to_nat i := v]> l).
Proof.
  intros Hi. unfold py_setitem. cbv zeta.
  rewrite (bool_decide_eq_false_2 (i < 0)) by lia.
  by rewrite !bool_decide_eq_true_2 by lia.
Qed.

Section BoardSetup.

Variables (h w : Z).
Implicit Types (board : list (list bool)) (ij : Cell) (mines : gset Cell).

Lemma empty_board_well_formed :
  0 ≤ h → 0 ≤ w →
  well_formed (Minesweeper.mk h w (Minesweeper.empty_board h w)).
Proof.
  intros Hh Hw. rewrite empty_board_replicate. split; simpl.
  - rewrite length_replicate. lia.
  - apply Forall_replicate. rewrite length_replicate. lia.
Qed.

Lemma empty_board_no_mine ij :
  mine_at (Minesweeper.mk h w (Minesweeper.empty_board h w)) ij = false.
Proof.
  unfold mine_at. simpl. rewrite empty_board_replicate.
  destruct (replicate _ _ !! Z.to_nat ij.1) as [row |] eqn:Hrow; [| done].
  apply lookup_replicate in Hrow as [-> _].
  destruct (replicate _ _ !! Z.to_nat ij.2) as [v |] eqn:Hv; [| done].
  by apply lookup_replicate in Hv as [-> _].
Qed.

Lemma empty_board_placement :
  0 ≤ h → 0 ≤ w →
  placement_of (Minesweeper.mk h w (Minesweeper.empty_board h w)) ∅.
Proof.
  intros Hh Hw ij. split; [set_solver |]. intros [Hij Hm].
  rewrite (is_mine_on_board _ (empty_board_well_formed Hh Hw) ij Hij) in Hm.
  by rewrite empty_board_no_mine in Hm.
Qed.

(** Setting one entry of a board. *)
Lemma set_entry board ij :
  well_formed (Minesweeper.mk h w board) →
  on_board (Minesweeper.mk h w board) ij →
  ∃ row board',
    py_getitem board ij.1 = Ret row
    ∧ py_getitem row ij.2 = Ret (mine_at (Minesweeper.mk h w board) ij)
    ∧ (row ← py_setitem row ij.2 true; py_setitem board ij.1 row)
      = Ret board'
    ∧ well_formed (Minesweeper.mk h w board')
    ∧ ∀ ij', on_board (Minesweeper.mk h w board') ij' →
             mine_at (Minesweeper.mk h w board') ij'
             = if decide (ij' = ij) then true
               else mine_at (Minesweeper.mk h w board) ij'.
Proof.
  intros Hb Hij.
  destruct (lookup_on_board _ Hb ij Hij) as (row & Hrow & Hv & Hlen).
  pose proof Hb as [Hh Hw]. pose proof Hij as [Hi Hj]. simpl in *.
  exists row, (<[Z.to_nat ij.1 := <[Z.to_nat ij.2 := true]> row]> board).
  split_and!.
  - rewrite py_getitem_in_range by lia. unfold py_index. by rewrite Hrow.
  - rewrite py_getitem_in_range by lia. unfold py_index. by rewrite Hv.
  - rewrite py_setitem_in_range by lia. simpl.
    by rewrite py_setitem_in_range by lia.
  - split; simpl.
    + by rewrite length_insert.
    + apply Forall_insert; [done |]. by rewrite length_insert.
  - intros [i' j'] [Hi' Hj']. destruct ij as [i j]. simpl in *.
    unfold mine_at. simpl.
    destruct (decide (i' = i)) as [-> | Hne].
    + rewrite list_lookup_insert_eq by lia. rewrite Hrow.
      destruct (decide (j' = j)) as [-> | Hne'].
      * rewrite list_lookup_insert_eq by lia. simpl.
        by rewrite decide_True.
      * rewrite list_lookup_insert_ne by lia.
        rewrite decide_False; [done |]. intros [= ?]. by subst.
    + rewrite list_lookup_insert_ne by lia.
      rewrite decide_False; [done |]. intros [= ? ?]. by subst.
Qed.

Variables (draws : nat → Cell) (m : Z).
Hypothesis rows : 0 < h.
Hypothesis columns : 0 < w.
Hypothesis draws_on_board : ∀ k, 0 ≤ (draws k).1 < h ∧ 0 ≤ (draws k).2 < w.

Lemma laid_step board mines k :
  laid h w board mines →
  ∃ row, py_getitem board (draws k).1 = Ret row
    ∧ py_getitem row (draws k).2
      = Ret (mine_at (Minesweeper.mk h w board) (draws k))
    ∧ (draws k ∈ mines ↔ mine_at (Minesweeper.mk h w board) (draws k) = true)
    ∧ ∃ board',
        (row ← py_setitem row (draws k).2 true;
         py_setitem board (draws k).1 row) = Ret board'
        ∧ laid h w board' (mines ∪ {[draws k]}).
Proof.
  intros [Hb HM].
  assert (Hij : on_board (Minesweeper.mk h w board) (draws k))
    by apply draws_on_board.
  destruct (set_entry board (draws k) Hb Hij)
    as (row & board' & H1 & H2 & H3 & Hb' & Hat).
  exists row. split_and!; [done | done | |].
  - rewrite (HM (draws k)), (is_mine_on_board _ Hb _ Hij).
    split; [intros [_ [= ?]]; done | intros ->; done].
  - exists board'. split; [done |]. split; [done |]. intros ij.
    rewrite elem_of_union, elem_of_singleton, (HM ij). split.
    + intros [[Hon Hm] | ->].
      * split; [done |]. rewrite (is_mine_on_board _ Hb' _ Hon), Hat by done.
        rewrite (is_mine_on_board _ Hb _ Hon) in Hm. case_decide; congruence.
      * split; [done |].
        rewrite (is_mine_on_board _ Hb' _ Hij), Hat by done.
        by rewrite decide_True.
    + intros [Hon Hm].
      rewrite (is_mine_on_board _ Hb' _ Hon), Hat in Hm by done.
      case_decide; [by right | left]. split; [done |].
      by rewrite (is_mine_on_board _ Hb _ Hon).
Qed.

Lemma place_mines_laid fuel k board mines :
  laid h w board mines →
  match Minesweeper.place_mines fuel draws k h w m mines board with
  | Some (Ret (mines', board')) =>
      laid h w board' mines' ∧ Z.of_nat (size mines') = m ∧ mines ⊆ mines'
  | Some (Raise _) => False
  | None => True
  end.
Proof.
  revert k board mines. induction fuel as [| fuel IH]; intros k board mines Hl;
    simpl.
  - case_bool_decide as Hm; [done |]. split_and!; [done | | done].
    destruct (decide (Z.of_nat (size mines) = m)); tauto.
  - case_bool_decide as Hm.
    2: { split_and!; [done | | done].
         destruct (decide (Z.of_nat (size mines) = m)); tauto. }
    rewrite !bool_decide_eq_true_2 by done. simpl.
    destruct (laid_step board mines k Hl)
      as (row & Hrow & Hv & Hin & board' & Hset & Hl').
    destruct (draws k) as [i j] eqn:Hd. simpl in *.
    rewrite Hrow, Hv.
    destruct (mine_at (Minesweeper.mk h w board) (i, j)); simpl.
    + by apply IH.
    + rewrite Hset. specialize (IH (S k) board' _ Hl').
      destruct (Minesweeper.place_mines _ _ _ _ _ _ _ _)
        as [[[mines' board''] | e] |]; [| done | done].
      destruct IH as (? & ? & ?). split_and!; [done | done | set_solver].
Qed.

End BoardSetup.

Lemma size_list_to_set_le (l : list Cell) :
  (size (list_to_set (C := gset Cell) l) ≤ length l)%nat.
Proof.
  induction l as [| x l IH].
  - change (list_to_set []) with (∅ : gset Cell). by rewrite size_empty.
  - rewrite list_to_set_cons, size_union_alt, size_singleton. simpl.
    assert (size (list_to_set (C := gset Cell) l ∖ {[x]})
            ≤ size (list_to_set (C := gset Cell) l))%nat
      by (apply subseteq_size; set_solver).
    lia.
Qed.

Lemma board_cells_length (h w : Z) :
  length (board_cells h w) = (Z.to_nat h * Z.to_nat w)%nat.
Proof.
  unfold board_cells. rewrite <- (length_seqZ 0 h).
  induction (seqZ 0 h) as [| i l IH]; [done |].
  cbn [mbind list_bind]. rewrite length_app, IH. simpl. f_equal.
  rewrite <- (length_seqZ 0 w) at 1.
  clear. induction (seqZ 0 w) as [| j l IH]; [done |].
  cbn [mbind list_bind]. simpl. by rewrite IH.
Qed.

Lemma elem_of_board_cells (h w : Z) (ij : Cell) :
  ij ∈ board_cells h w ↔ (0 ≤ ij.1 < h) ∧ (0 ≤ ij.2 < w).
Proof.
  unfold board_cells. rewrite list_elem_of_bind. split.
  - intros (i & (j & ->%list_elem_of_singleton & Hj%elem_of_seqZ)%list_elem_of_bind
              & Hi%elem_of_seqZ).
    simpl. lia.
  - intros [Hi Hj]. exists ij.1. rewrite elem_of_seqZ. split; [| lia].
    apply list_elem_of_bind. exists ij.2. rewrite elem_of_seqZ.
    split; [| lia]. destruct ij. simpl. set_solver.
Qed.

Lemma laid_size (h w : Z) board mines :
  0 ≤ h → 0 ≤ w →
  laid h w board mines → Z.of_nat (size mines) ≤ h * w.
Proof.
  intros Hh Hw [_ HM].
  assert (mines ⊆ list_to_set (board_cells h w)) as Hsub.
  { intros ij [Hon _]%HM. apply elem_of_list_to_set, elem_of_board_cells.
    apply Hon. }
  apply subseteq_size in Hsub.
  pose proof (size_list_to_set_le (board_cells h w)) as Hle.
  rewrite board_cells_length in Hle. nia.
Qed.

(** X19. The constructor of the board, with every sample in range. It does
    not raise; and when it returns, the board has [height] rows of [width]
    entries, [mines] is the set of the cells whose entry is [True], there
    are as many of them as asked for, [mines_found] is empty, and the game
    counts as won only if no mine was asked for. *)
Theorem init_lays_mines (fuel : nat) (draws : nat → Cell) (h w m : Z) :
  0 < h → 0 < w →
  (∀ k, (0 ≤ (draws k).1 < h) ∧ (0 ≤ (draws k).2 < w)) →
  match Minesweeper.init fuel draws h w m with
  | Some (Ret g) =>
      Minesweeper.height (Minesweeper.base g) = h
      ∧ Minesweeper.width (Minesweeper.base g) = w
      ∧ well_formed (Minesweeper.base g)
      ∧ placement_of (Minesweeper.base g) (Minesweeper.mines g)
      ∧ Z.of_nat (size (Minesweeper.mines g)) = m
      ∧ Minesweeper.mines_found g = ∅
      ∧ (Minesweeper.won g = true ↔ m = 0)
  | Some (Raise _) => False
  | None => True
  end.
Proof.
  intros Hh Hw Hd. unfold Minesweeper.init.
  pose proof (place_mines_laid h w draws m Hh Hw Hd fuel 0
                (Minesweeper.empty_board h w) ∅) as H.
  destruct (Minesweeper.place_mines fuel draws 0 h w m ∅ _)
    as [[[mines board] | e] |]; simpl; [| apply H | done].
  - destruct H as ([Hb HM] & Hm & _).
    { split; [apply empty_board_well_formed | apply empty_board_placement];
        lia. }
    split_and!; try done. unfold Minesweeper.won. simpl.
    rewrite bool_decide_eq_true. split.
    + intros <-. rewrite size_empty in Hm. lia.
    + intros ->. symmetry. apply leibniz_equiv, size_empty_inv. lia.
  - split; [apply empty_board_well_formed | apply empty_board_placement]; lia.
Qed.

Lemma init_lays_mines_witness :
  match
    Minesweeper.init 10 (λ k, (Z.of_nat k `mod` 2, Z.of_nat k `mod` 3)) 2 3 3
  with
  | Some (Ret g) =>
      Minesweeper.height (Minesweeper.base g) = 2
      ∧ Minesweeper.width (Minesweeper.base g) = 3
      ∧ well_formed (Minesweeper.base g)
      ∧ placement_of (Minesweeper.base g) (Minesweeper.mines g)
      ∧ Z.of_nat (size (Minesweeper.mines g)) = 3
      ∧ Minesweeper.mines_found g = ∅
      ∧ (Minesweeper.won g = true ↔ 3 = 0)
  | Some (Raise _) => False
  | None => True
  end.
Proof.
  apply (init_lays_mines 10
           (λ k, (Z.of_nat k `mod` 2, Z.of_nat k `mod` 3)) 2 3 3);
    [lia | lia |].
  intros k. simpl. split; apply Z.mod_pos_bound; lia.
Defined.

Example init_returns_a_board :
  (λ g, (Minesweeper.board (Minesweeper.base g),
         elements (Minesweeper.mines g)))
  <$> Minesweeper.init 10 (λ k, (Z.of_nat k `mod` 2, Z.of_nat k `mod` 3)) 2 3
        3 ≫= (λ r, match r with Ret g => Some g | Raise _ => None end)
  = Some ([[true; false; true]; [false; true; false]],
          [(0, 2); (0, 0); (1, 1)]).
Proof. evaluate. Qed.

(** X20. Asked for more mines than the board has cells, or for a negative
    number of them, the constructor never returns: whatever the samples in
    range, the loop of lines 25-30 is still running after any number of
    iterations. *)
Theorem init_never_returns (draws : nat → Cell) (h w m : Z) :
  0 < h → 0 < w →
  (∀ k, (0 ≤ (draws k).1 < h) ∧ (0 ≤ (draws k).2 < w)) →
  m < 0 ∨ h * w < m →
  ∀ fuel, Minesweeper.init fuel draws h w m = None.
Proof.
  intros Hh Hw Hd Hm fuel. unfold Minesweeper.init.
  pose proof (place_mines_laid h w draws m Hh Hw Hd fuel 0
                (Minesweeper.empty_board h w) ∅) as H.
  destruct (Minesweeper.place_mines fuel draws 0 h w m ∅ _)
    as [[[mines board] | e] |]; simpl; [| exfalso; apply H | done].
  - destruct H as (Hl & Hsz & _).
    { split; [apply empty_board_well_formed | apply empty_board_placement];
        lia. }
    apply laid_size in Hl; lia.
  - split; [apply empty_board_well_formed | apply empty_board_placement]; lia.
Qed.

Lemma init_never_returns_witness :
  Minesweeper.init 1000 (λ _, (0, 0)) 1 1 2 = None.
Proof.
  apply (init_never_returns (λ _, (0, 0)) 1 1 2); [lia | lia | | lia].
  intros k. simpl. lia.
Defined.

Section DistinctSamples.

Variables (h w : Z) (draws : nat → Cell) (m : Z).
Hypothesis rows : 0 < h.
Hypothesis columns : 0 < w.
Hypothesis draws_on_board : ∀ k, 0 ≤ (draws k).1 < h ∧ 0 ≤ (draws k).2 < w.

Lemma place_mines_distinct (n k fuel : nat) board :
  laid h w board (list_to_set (draws <$> seq 0 k)) →
  Z.of_nat (k + n) = m →
  NoDup (draws <$> seq 0 (k + n)) →
  (n ≤ fuel)%nat →
  ∃ board',
    Minesweeper.place_mines fuel draws k h w m
      (list_to_set (draws <$> seq 0 k)) board
    = Some (Ret (list_to_set (draws <$> seq 0 (k + n)), board')).
Proof.
  revert k fuel board. induction n as [| n IH]; intros k fuel board Hl Hm Hnd Hf.
  - rewrite Nat.add_0_r in *.
    assert (Z.of_nat (size (list_to_set (C := gset Cell) (draws <$> seq 0 k)))
            = m) as Hsz
      by (rewrite size_list_to_set, length_fmap, length_seq by done; lia).
    exists board.
    destruct fuel; simpl; by rewrite bool_decide_eq_false_2 by tauto.
  - assert (NoDup (draws <$> seq 0 (S k))) as Hnd'.
    { replace (k + S n)%nat with (S k + n)%nat in Hnd by lia.
      rewrite seq_app, fmap_app in Hnd. by apply NoDup_app in Hnd as [? _]. }
    assert (NoDup (draws <$> seq 0 k)) as Hndk.
    { rewrite seq_S, fmap_app in Hnd'. by apply NoDup_app in Hnd' as [? _]. }
    assert (draws k ∉ (list_to_set (draws <$> seq 0 k) : gset Cell)) as Hfresh.
    { rewrite elem_of_list_to_set. rewrite seq_S, fmap_app in Hnd'.
      apply NoDup_app in Hnd' as (_ & Hd & _). intros Hin.
      apply (Hd _ Hin). simpl. set_solver. }
    destruct fuel as [| fuel]; [lia |]. simpl.
    rewrite bool_decide_eq_true_2
      by (rewrite size_list_to_set, length_fmap, length_seq by done; lia).
    rewrite !bool_decide_eq_true_2 by done. simpl.
    destruct (laid_step h w draws draws_on_board board _ k Hl)
      as (row & Hrow & Hv & Hin & board' & Hset & Hl').
    destruct (draws k) as [i j] eqn:Hd. simpl in *. rewrite Hrow, Hv.
    destruct (mine_at (Minesweeper.mk h w board) (i, j)); [tauto |]. simpl.
    rewrite Hset.
    replace (list_to_set (draws <$> seq 0 k) ∪ {[(i, j)]})
      with (list_to_set (C := gset Cell) (draws <$> seq 0 (S k))) in *.
    2: { rewrite seq_S, fmap_app, list_to_set_app_L. simpl. rewrite Hd.
         set_solver. }
    replace (k + S n)%nat with (S k + n)%nat in * by lia.
    apply IH; [done | done | done | lia].
Qed.

End DistinctSamples.

(** X21. The constructor returns as soon as it has sampled enough cells.
    If the first [mines] samples are different cells in range, a board is
    returned after [mines] iterations, with those cells as its mines. *)
Theorem init_returns_when_distinct (fuel : nat) (draws : nat → Cell)
    (h w m : Z) :
  0 < h → 0 < w →
  (∀ k, (0 ≤ (draws k).1 < h) ∧ (0 ≤ (draws k).2 < w)) →
  0 ≤ m →
  NoDup (draws <$> seq 0 (Z.to_nat m)) →
  (Z.to_nat m ≤ fuel)%nat →
  ∃ g, Minesweeper.init fuel draws h w m = Some (Ret g)
       ∧ Minesweeper.mines g = list_to_set (draws <$> seq 0 (Z.to_nat m)).
Proof.
  intros Hh Hw Hd Hm Hnd Hf. unfold Minesweeper.init.
  destruct (place_mines_distinct h w draws m Hh Hw Hd (Z.to_nat m) 0 fuel
              (Minesweeper.empty_board h w)) as [board' Hp].
  - split; [apply empty_board_well_formed | apply empty_board_placement]; lia.
  - simpl. lia.
  - done.
  - done.
  - simpl in Hp. rewrite Hp. simpl. by eexists.
Qed.

Lemma init_returns_when_distinct_witness :
  ∃ g, Minesweeper.init 5 (λ k, (0, Z.of_nat k `mod` 3)) 1 3 2 = Some (Ret g)
       ∧ Minesweeper.mines g
         = list_to_set ((λ k, (0, Z.of_nat k `mod` 3)) <$> seq 0 (Z.to_nat 2)).
Proof.
  apply (init_returns_when_distinct 5 (λ k, (0, Z.of_nat k `mod` 3)) 1 3 2);
    [lia | lia | | lia | decide_by_evaluation | simpl; lia].
  intros k. simpl. split; [lia | apply Z.mod_pos_bound; lia].
Defined.
